(** * cairo-symbol: layout of schematic symbols

    A shallow embedding of [cairo-symbol.cc]: the classes [Pin], [Section] and
    [Symbol], their sizing methods and their [draw] methods.

    Conventions of the embedding.
    - A C++ [double] is an exact rational ([Q]); no rounding is modelled.  Every
      [double] the sizing code builds from [int] operands is an integer far
      below 2^53, which binary64 represents exactly.
    - A C++ [int] is an integer ([Z]).  Signed overflow is undefined in C++ and
      is not modelled: sizes are pixel counts.
    - The conversion [double -> int] truncates toward zero ([double_to_int]).
    - A [Cairo::Context] is the sequence of calls made on it ([Cmd]); a [draw]
      method returns the calls it makes, in order.
    - [get_text_extents] is a function from strings to [TextExtents].  The code
      measures with two contexts: the one it draws on, and a fresh context on a
      [RecordingSurface] inside [innerWidth], [outerWidth] and [height]. *)

From Stdlib Require Import ZArith QArith Qround List String Bool Lia Lqa Permutation.
Import ListNotations.

Open Scope Z_scope.
Open Scope Q_scope.

(** ** Numbers *)

Definition double_to_int (d : Q) : Z := Z.quot (Qnum d) (Zpos (Qden d)).

Definition int_to_double (i : Z) : Q := inject_Z i.

(** ** The cairo interface used by the program *)

Record TextExtents := mkTextExtents {
  te_x_bearing : Q;
  te_y_bearing : Q;
  te_width : Q;
  te_height : Q;
  te_x_advance : Q;
  te_y_advance : Q
}.

Record Rectangle := mkRectangle {
  rect_x : Q;
  rect_y : Q;
  rect_width : Q;
  rect_height : Q
}.

Definition set_rect_x (r : Rectangle) (v : Q) : Rectangle :=
  mkRectangle v (rect_y r) (rect_width r) (rect_height r).

Definition set_rect_y (r : Rectangle) (v : Q) : Rectangle :=
  mkRectangle (rect_x r) v (rect_width r) (rect_height r).

(** The methods of [Cairo::Context] the program calls, [get_text_extents]
    apart (it is a query and leaves no mark on the context). *)
Inductive Cmd :=
| save
| restore
| move_to (x y : Q)
| rel_move_to (dx dy : Q)
| line_to (x y : Q)
| show_text (s : string)
| close_path
| set_line_width (w : Q)
| set_source_rgb (r g b : Q)
| rectangle (x y w h : Q)
| stroke.

(** A step of a [draw] method: a call on the context, or a call of the [draw]
    method of a child with the rectangle it is given. *)
Inductive Act (Child : Type) :=
| prim (c : Cmd)
| call (child : Child) (pos : Rectangle).

Arguments prim {Child} c.
Arguments call {Child} child pos.

Definition prims {Child : Type} (cs : list Cmd) : list (Act Child) := map prim cs.

(** The calls a body makes on the context once the children's [draw] methods
    are run in place. *)
Definition expand {Child : Type} (child_draw : Child -> Rectangle -> list Cmd)
    (body : list (Act Child)) : list Cmd :=
  flat_map (fun a => match a with
                     | prim c => [c]
                     | call ch pos => child_draw ch pos
                     end) body.

(** The children drawn by a body, with their rectangles, in call order. *)
Definition calls {Child : Type} (body : list (Act Child)) : list (Child * Rectangle) :=
  flat_map (fun a => match a with
                     | prim _ => []
                     | call ch pos => [(ch, pos)]
                     end) body.

(** ** Data model *)

Inductive PinDirection := IN | OUT | INOUT.

Definition PinDirection_eqb (a b : PinDirection) : bool :=
  match a, b with
  | IN, IN | OUT, OUT | INOUT, INOUT => true
  | _, _ => false
  end.

Record Pin := mkPin {
  pin_direction : PinDirection;
  pin_name : string;
  pin_type : string;
  pin_is_bus : bool
}.

(** [class Section]: [std::vector<Pin> pins; std::string name]. *)
Record SectionT := mkSection {
  section_pins : list Pin;
  section_name : string
}.

(** [class Symbol]: [std::vector<Section> sections; std::string name]. *)
Record SymbolT := mkSymbol {
  symbol_sections : list SectionT;
  symbol_name : string
}.

(** [std::copy_if (first, last, std::back_inserter(out), pred)]. *)
Definition copy_if {A : Type} (src : list A) (out : list A) (pred : A -> bool) : list A :=
  fold_left (fun out x => if pred x then out ++ [x] else out) src out.

(** ** Constants *)

Definition kStemLength : Q := 15.
Definition kWireStemWidth : Q := 1.
Definition kBusStemWidth : Q := 2.
Definition kTextPadding : Q := 5.

Definition kTextSeparator : Q := 10.
Definition kTopBottomPadding : Q := 10.
Definition kBorderThickness : Q := 1.5.
Definition kPinSpacing : Q := 5.

Definition kNameSpacing : Q := 5.

Section Program.

(** [get_text_extents] of the context drawn on. *)
Variable ctx_extents : string -> TextExtents.
(** [get_text_extents] of a fresh context on a [RecordingSurface]. *)
Variable rec_extents : string -> TextExtents.

(** *** Free function [drawRTLText] *)

Definition drawRTLText (str : string) : list Cmd :=
  let extents := ctx_extents str in
  [rel_move_to (- te_width extents) 0; show_text str].

(** *** [class Pin] *)

Definition getDirection (p : Pin) : PinDirection := pin_direction p.

Definition is_IN (p : Pin) : bool := PinDirection_eqb (getDirection p) IN.
Definition is_OUT (p : Pin) : bool := PinDirection_eqb (getDirection p) OUT.

Definition Pin_draw (p : Pin) (pos : Rectangle) : list Cmd :=
  [save]
  (* Draw pin name *)
  ++ [save]
  ++ (if is_IN p
      then [move_to (rect_x pos + kTextPadding) (rect_y pos); show_text (pin_name p)]
      else [move_to (rect_x pos - kTextPadding) (rect_y pos)] ++ drawRTLText (pin_name p))
  ++ [close_path; restore]
  (* Calculate stem alignment *)
  ++ (let extents := ctx_extents (pin_name p) in
      (* Draw pin stem *)
      [save;
       set_line_width (if pin_is_bus p then kBusStemWidth else kWireStemWidth);
       move_to (rect_x pos) (rect_y pos + te_y_bearing extents / 2)]
      ++ (if is_IN p
          then [line_to (rect_x pos - kStemLength) (rect_y pos + te_y_bearing extents / 2)]
          else [line_to (rect_x pos + kStemLength) (rect_y pos + te_y_bearing extents / 2)])
      ++ [stroke; restore])
  (* Draw pin type *)
  ++ [save; set_source_rgb 0.5 0.5 0.5]
  ++ (if is_IN p
      then [move_to (rect_x pos - kTextPadding - kStemLength) (rect_y pos)]
           ++ drawRTLText (pin_type p)
      else [move_to (rect_x pos + kTextPadding + kStemLength) (rect_y pos);
            show_text (pin_type p)])
  ++ [restore]
  ++ [restore].

Definition Pin_innerWidth (p : Pin) : Z :=
  let extents := rec_extents (pin_name p) in
  double_to_int (kTextPadding + te_width extents).

Definition Pin_outerWidth (p : Pin) : Z :=
  let extents := rec_extents (pin_type p) in
  double_to_int (kStemLength + kTextPadding + te_width extents).

Definition Pin_height : Z :=
  let extents := rec_extents "Hello world" in
  double_to_int (te_height extents).

(** *** [class Section] *)

Definition Section_new (name : string) : SectionT := mkSection [] name.

Definition Section_addPin (s : SectionT) (pin : Pin) : SectionT :=
  mkSection (section_pins s ++ [pin]) (section_name s).

(** One turn of the loop of [rows] on the pair [(left_rows, right_rows)]. *)
Definition rows_step (acc : Z * Z) (pin : Pin) : Z * Z :=
  let '(left_rows, right_rows) := acc in
  if is_IN pin then ((left_rows + 1)%Z, right_rows)
  else (left_rows, (right_rows + 1)%Z).

Definition Section_rows (s : SectionT) : Z :=
  let '(left_rows, right_rows) := fold_left rows_step (section_pins s) (0%Z, 0%Z) in
  if (left_rows >? right_rows)%Z then left_rows else right_rows.

Definition Section_height (s : SectionT) : Z :=
  double_to_int (kPinSpacing * int_to_double (Section_rows s - 1)%Z
                 + int_to_double (Section_rows s * Pin_height)%Z
                 + int_to_double 2 * kTopBottomPadding).

(** One turn of the loop of [minInnerWidth] on the pair
    [(leftInnerWidth, rightInnerWidth)]. *)
Definition minInnerWidth_step (acc : Z * Z) (pin : Pin) : Z * Z :=
  let '(leftInnerWidth, rightInnerWidth) := acc in
  if (Pin_innerWidth pin >? leftInnerWidth)%Z && is_IN pin
  then (Pin_innerWidth pin, rightInnerWidth)
  else if (Pin_innerWidth pin >? rightInnerWidth)%Z && is_OUT pin
  then (leftInnerWidth, Pin_innerWidth pin)
  else (leftInnerWidth, rightInnerWidth).

Definition Section_minInnerWidth (s : SectionT) : Z :=
  let '(leftInnerWidth, rightInnerWidth) :=
    fold_left minInnerWidth_step (section_pins s) (0%Z, 0%Z) in
  double_to_int (int_to_double leftInnerWidth + kTextSeparator
                 + int_to_double rightInnerWidth).

Definition minOuterWidth_step (minOuterWidth : Z) (pin : Pin) : Z :=
  if (Pin_outerWidth pin >? minOuterWidth)%Z then Pin_outerWidth pin else minOuterWidth.

Definition Section_minOuterWidth (s : SectionT) : Z :=
  fold_left minOuterWidth_step (section_pins s) 0%Z.

Definition left_pins (s : SectionT) : list Pin :=
  copy_if (section_pins s) [] (fun pin => is_IN pin).

Definition right_pins (s : SectionT) : list Pin :=
  copy_if (section_pins s) [] (fun pin => negb (is_IN pin)).

(** One turn of either loop over a column in [Section::draw]: the state is
    [pin_rect] and the steps made so far. *)
Definition column_step (st : Rectangle * list (Act Pin)) (pin : Pin)
    : Rectangle * list (Act Pin) :=
  let '(pin_rect, body) := st in
  let pin_rect := set_rect_y pin_rect (rect_y pin_rect + int_to_double Pin_height) in
  let body := body ++ [call pin pin_rect] in
  let pin_rect := set_rect_y pin_rect (rect_y pin_rect + kPinSpacing) in
  (pin_rect, body).

Definition Section_draw_body (s : SectionT) (pos : Rectangle) : list (Act Pin) :=
  let body := prims [save] in
  (* Draw section rectangle *)
  let body := body ++ prims [rectangle (rect_x pos) (rect_y pos)
                                       (rect_width pos) (rect_height pos);
                             stroke] in
  let pin_rect := mkRectangle (rect_x pos) (rect_y pos + kTopBottomPadding) 0 0 in
  let '(pin_rect, body) := fold_left column_step (left_pins s) (pin_rect, body) in
  let pin_rect := set_rect_x pin_rect (rect_x pos + rect_width pos) in
  let pin_rect := set_rect_y pin_rect (rect_y pos + kTopBottomPadding) in
  let '(pin_rect, body) := fold_left column_step (right_pins s) (pin_rect, body) in
  body ++ prims [restore].

Definition Section_draw (s : SectionT) (pos : Rectangle) : list Cmd :=
  expand Pin_draw (Section_draw_body s pos).

(** *** [class Symbol] *)

Definition Symbol_addSection (y : SymbolT) (section : SectionT) : SymbolT :=
  mkSymbol (symbol_sections y ++ [section]) (symbol_name y).

(** One turn of the first loop of [Symbol::draw] on [(innerWidth, outerWidth)]. *)
Definition widths_step (acc : Z * Z) (section : SectionT) : Z * Z :=
  let '(innerWidth, outerWidth) := acc in
  let innerWidth :=
    if (Section_minInnerWidth section >? innerWidth)%Z
    then Section_minInnerWidth section else innerWidth in
  let outerWidth :=
    if (Section_minOuterWidth section >? outerWidth)%Z
    then Section_minOuterWidth section else outerWidth in
  (innerWidth, outerWidth).

Definition Symbol_widths (y : SymbolT) : Z * Z :=
  fold_left widths_step (symbol_sections y) (0%Z, 0%Z).

(** The rectangle [r] built in a turn of the second loop of [Symbol::draw]. *)
Definition section_rect (innerWidth outerWidth : Z) (extents : TextExtents)
    (section : SectionT) : Rectangle :=
  mkRectangle (int_to_double outerWidth)
              (te_height extents + kNameSpacing)
              (int_to_double innerWidth)
              (int_to_double (Section_height section)).

Definition Symbol_draw_body (y : SymbolT) : list (Act SectionT) :=
  let '(innerWidth, outerWidth) := Symbol_widths y in
  (* Draw symbol name *)
  let extents := ctx_extents (symbol_name y) in
  let body :=
    prims [save;
           move_to (int_to_double outerWidth
                    + (int_to_double innerWidth - te_width extents) / 2)
                   (te_height extents);
           show_text (symbol_name y);
           restore] in
  fold_left (fun body section =>
               let r := section_rect innerWidth outerWidth extents section in
               body ++ [call section r])
            (symbol_sections y) body.

Definition Symbol_draw (y : SymbolT) : list Cmd :=
  expand Section_draw (Symbol_draw_body y).

End Program.

(** ** What a sequence of context calls paints

    The part of cairo's documented behaviour the [draw] methods rely on: the
    current point and the current path (neither is saved by [save]), the line
    width and the source colour (both are), and the marks left on the surface by
    [show_text] and [stroke].  A text mark records the origin of the text and
    the width [get_text_extents] reports for it, the same width [drawRTLText]
    steps back by: the text covers [x, x + w] on its baseline. *)

Inductive Mark :=
| text_mark (s : string) (x y w : Q) (rgb : Q * Q * Q)
| line_mark (x0 y0 x1 y1 : Q) (lw : Q) (rgb : Q * Q * Q).

Record GState := mkGState {
  gs_line_width : Q;
  gs_rgb : Q * Q * Q
}.

Record Context := mkContext {
  cx_point : option (Q * Q);          (* the current point, if any *)
  cx_start : Q * Q;                   (* where the current sub-path began *)
  cx_has_line : bool;                 (* the current sub-path has a segment *)
  cx_path : list (Q * Q * Q * Q);     (* segments not stroked yet *)
  cx_gstate : GState;
  cx_saved : list GState;
  cx_marks : list Mark
}.

(** A new context: no path, line width 2, black. *)
Definition Context_create : Context :=
  mkContext None (0, 0) false [] (mkGState 2 (0, 0, 0)) [] [].

Section Painting.

Variable ctx_extents : string -> TextExtents.

Definition begin_at (cx : Context) (p : Q * Q) : Context :=
  mkContext (Some p) p false (cx_path cx) (cx_gstate cx) (cx_saved cx) (cx_marks cx).

Definition Context_step (cx : Context) (c : Cmd) : Context :=
  match c with
  | save =>
      mkContext (cx_point cx) (cx_start cx) (cx_has_line cx) (cx_path cx)
                (cx_gstate cx) (cx_gstate cx :: cx_saved cx) (cx_marks cx)
  | restore =>
      match cx_saved cx with
      | g :: rest =>
          mkContext (cx_point cx) (cx_start cx) (cx_has_line cx) (cx_path cx)
                    g rest (cx_marks cx)
      | [] => cx
      end
  | move_to x y => begin_at cx (x, y)
  | rel_move_to dx dy =>
      match cx_point cx with
      | Some (x, y) => begin_at cx (x + dx, y + dy)
      | None => cx
      end
  | line_to x y =>
      match cx_point cx with
      | Some (x0, y0) =>
          mkContext (Some (x, y)) (cx_start cx) true (cx_path cx ++ [(x0, y0, x, y)])
                    (cx_gstate cx) (cx_saved cx) (cx_marks cx)
      | None => begin_at cx (x, y)
      end
  | show_text s =>
      let '(x, y) := match cx_point cx with Some p => p | None => (0, 0) end in
      let e := ctx_extents s in
      mkContext (Some (x + te_x_advance e, y + te_y_advance e))
                (x + te_x_advance e, y + te_y_advance e) false (cx_path cx)
                (cx_gstate cx) (cx_saved cx)
                (cx_marks cx ++ [text_mark s x y (te_width e) (gs_rgb (cx_gstate cx))])
  | close_path =>
      match cx_point cx, cx_has_line cx with
      | Some (x, y), true =>
          mkContext (Some (cx_start cx)) (cx_start cx) false
                    (cx_path cx ++ [(x, y, fst (cx_start cx), snd (cx_start cx))])
                    (cx_gstate cx) (cx_saved cx) (cx_marks cx)
      | _, _ => cx
      end
  | set_line_width w =>
      mkContext (cx_point cx) (cx_start cx) (cx_has_line cx) (cx_path cx)
                (mkGState w (gs_rgb (cx_gstate cx))) (cx_saved cx) (cx_marks cx)
  | set_source_rgb r g b =>
      mkContext (cx_point cx) (cx_start cx) (cx_has_line cx) (cx_path cx)
                (mkGState (gs_line_width (cx_gstate cx)) (r, g, b))
                (cx_saved cx) (cx_marks cx)
  | rectangle x y w h =>
      mkContext (Some (x, y)) (x, y) false
                (cx_path cx ++ [(x, y, x + w, y); (x + w, y, x + w, y + h);
                                (x + w, y + h, x, y + h); (x, y + h, x, y)])
                (cx_gstate cx) (cx_saved cx) (cx_marks cx)
  | stroke =>
      mkContext None (cx_start cx) false []
                (cx_gstate cx) (cx_saved cx)
                (cx_marks cx
                 ++ map (fun '(x0, y0, x1, y1) =>
                           line_mark x0 y0 x1 y1 (gs_line_width (cx_gstate cx))
                                     (gs_rgb (cx_gstate cx)))
                        (cx_path cx))
  end.

Definition Context_run (cx : Context) (cs : list Cmd) : Context :=
  fold_left Context_step cs cx.

(** The marks a sequence of calls leaves on a new context. *)
Definition painted (cs : list Cmd) : list Mark :=
  cx_marks (Context_run Context_create cs).

End Painting.

(** Reflection of a mark in the vertical line [x = a]: a text covering
    [x, x + w] goes to the text covering [2a - (x + w), 2a - x]. *)
Definition mirror (a : Q) (m : Mark) : Mark :=
  match m with
  | text_mark s x y w rgb => text_mark s (2 * a - (x + w)) y w rgb
  | line_mark x0 y0 x1 y1 lw rgb => line_mark (2 * a - x0) y0 (2 * a - x1) y1 lw rgb
  end.

(** Two marks are the same up to the value of their coordinates. *)
Definition Mark_equiv (m1 m2 : Mark) : Prop :=
  match m1, m2 with
  | text_mark s1 x1 y1 w1 c1, text_mark s2 x2 y2 w2 c2 =>
      s1 = s2 /\ x1 == x2 /\ y1 == y2 /\ w1 == w2 /\ c1 = c2
  | line_mark a1 b1 c1 d1 l1 r1, line_mark a2 b2 c2 d2 l2 r2 =>
      a1 == a2 /\ b1 == b2 /\ c1 == c2 /\ d1 == d2 /\ l1 == l2 /\ r1 = r2
  | _, _ => False
  end.

(** ** Sample data *)

(** A fixed-pitch font: every character is 6 wide, every non-empty line 9 high. *)
Definition mono_extents (s : string) : TextExtents :=
  let n := Z.of_nat (String.length s) in
  mkTextExtents 0
                (if (n =? 0)%Z then 0 else - 9)
                (int_to_double (6 * n))
                (if (n =? 0)%Z then 0 else 9)
                (int_to_double (6 * n))
                0.

(** The pins, the section and the symbol built by [main]. *)
Definition pin1 : Pin := mkPin IN "i_foo" "logic [15:0]" true.
Definition pin2 : Pin := mkPin OUT "o_bar" "logic" false.
Definition pin3 : Pin := mkPin IN "i_foobar" "logic" false.
Definition pin4 : Pin := mkPin IN "i_barfoo" "logic [15:0]" true.

Definition main_pins : SectionT :=
  Section_addPin (Section_addPin (Section_addPin (Section_addPin
    (Section_new "") pin1) pin2) pin3) pin4.

Definition main_symbol : SymbolT :=
  Symbol_addSection (mkSymbol [] "My symbol") main_pins.

(** A symbol with two sections, the second holding one bidirectional pin. *)
Definition two_sections : SymbolT :=
  Symbol_addSection main_symbol
    (Section_addPin (Section_new "") (mkPin INOUT "io_data" "logic [7:0]" true)).

(** ** Specification-side notions *)

(** [m] is the maximum of [l], taken as 0 when [l] is empty. *)
Definition max_or_zero (m : Z) (l : list Z) : Prop :=
  (l = [] /\ m = 0%Z) \/ (In m l /\ forall x, In x l -> (x <= m)%Z).

(** Number of pins of a list that satisfy [f]. *)
Definition count_pins (f : Pin -> bool) (pins : list Pin) : Z :=
  Z.of_nat (List.length (filter f pins)).

Definition is_INOUT (p : Pin) : bool := PinDirection_eqb (pin_direction p) INOUT.

(** What cairo promises of text extents: no text has a negative width, and the
    empty string has no width. *)
Definition nonneg_extents (f : string -> TextExtents) : Prop :=
  forall s, 0 <= te_width (f s).

Definition empty_extents (f : string -> TextExtents) : Prop :=
  te_width (f ""%string) == 0.

(** The calls one column loop of [Section::draw] makes when it starts with
    [pin_rect], and the [pin_rect] it ends with. *)
Fixpoint column_calls (H : Z) (pin_rect : Rectangle) (ps : list Pin)
    : list (Pin * Rectangle) :=
  match ps with
  | [] => []
  | pin :: ps' =>
      let r := set_rect_y pin_rect (rect_y pin_rect + int_to_double H) in
      (pin, r) :: column_calls H (set_rect_y r (rect_y r + kPinSpacing)) ps'
  end.

Fixpoint column_end (H : Z) (pin_rect : Rectangle) (ps : list Pin) : Rectangle :=
  match ps with
  | [] => pin_rect
  | pin :: ps' =>
      let r := set_rect_y pin_rect (rect_y pin_rect + int_to_double H) in
      column_end H (set_rect_y r (rect_y r + kPinSpacing)) ps'
  end.

(** The baseline of row [k] (from 0) of a section drawn at [pos], for pins of
    height [H]: one pin height below the padded top, then one pin height and one
    spacing per row. *)
Definition row_y (H : Z) (pos : Rectangle) (k : nat) : Q :=
  rect_y pos + kTopBottomPadding
  + int_to_double (Z.of_nat (S k)) * int_to_double H
  + int_to_double (Z.of_nat k) * kPinSpacing.

(** The three marks of a pin drawn at [pos] on a context whose colour is [rgb]:
    name, stem, type. *)
Definition pin_marks (ctx : string -> TextExtents) (rgb : Q * Q * Q) (p : Pin)
    (pos : Rectangle) : list Mark :=
  let wn := te_width (ctx (pin_name p)) in
  let wt := te_width (ctx (pin_type p)) in
  let ys := rect_y pos + te_y_bearing (ctx (pin_name p)) / 2 in
  let lw := if pin_is_bus p then kBusStemWidth else kWireStemWidth in
  if is_IN p
  then [text_mark (pin_name p) (rect_x pos + kTextPadding) (rect_y pos) wn rgb;
        line_mark (rect_x pos) ys (rect_x pos - kStemLength) ys lw rgb;
        text_mark (pin_type p) (rect_x pos - kTextPadding - kStemLength + - wt)
                  (rect_y pos + 0) wt (0.5, 0.5, 0.5)]
  else [text_mark (pin_name p) (rect_x pos - kTextPadding + - wn) (rect_y pos + 0) wn rgb;
        line_mark (rect_x pos) ys (rect_x pos + kStemLength) ys lw rgb;
        text_mark (pin_type p) (rect_x pos + kTextPadding + kStemLength)
                  (rect_y pos) wt (0.5, 0.5, 0.5)].

(** The four sides of [pos], stroked with the line width and colour of [g]. *)
Definition border_marks (g : GState) (pos : Rectangle) : list Mark :=
  let x := rect_x pos in
  let y := rect_y pos in
  let w := rect_width pos in
  let h := rect_height pos in
  map (fun '(x0, y0, x1, y1) => line_mark x0 y0 x1 y1 (gs_line_width g) (gs_rgb g))
      [(x, y, x + w, y); (x + w, y, x + w, y + h);
       (x + w, y + h, x, y + h); (x, y + h, x, y)].

(** What a section paints at [pos] on a context in state [g]: its border, then
    the marks of the pins it draws. *)
Definition section_marks (ctx rec : string -> TextExtents) (g : GState)
    (s : SectionT) (pos : Rectangle) : list Mark :=
  border_marks g pos
  ++ flat_map (fun c => pin_marks ctx (gs_rgb g) (fst c) (snd c))
              (calls (Section_draw_body rec s pos)).

(** [cx'] is [cx] after a scoped drawing that painted [ms]: nothing is left in
    the path, the graphics state and the stack of saved states are those of
    [cx], and [ms] is what was added to the surface. *)
Definition drawn (cx cx' : Context) (ms : list Mark) : Prop :=
  cx_path cx' = []
  /\ cx_gstate cx' = cx_gstate cx
  /\ cx_saved cx' = cx_saved cx
  /\ cx_marks cx' = cx_marks cx ++ ms.

(** The span [left, right] of the name a pin paints at [pos]: the first mark of
    [Pin::draw]. *)
Definition name_box (ctx : string -> TextExtents) (p : Pin) (pos : Rectangle)
    : option (Q * Q) :=
  match painted ctx (Pin_draw ctx p pos) with
  | text_mark _ x _ w _ :: _ => Some (x, x + w)
  | _ => None
  end.

(** The span [left, right] of the type a pin paints at [pos]: the last mark of
    [Pin::draw]. *)
Definition type_box (ctx : string -> TextExtents) (p : Pin) (pos : Rectangle)
    : option (Q * Q) :=
  match rev (painted ctx (Pin_draw ctx p pos)) with
  | text_mark _ x _ w _ :: _ => Some (x, x + w)
  | _ => None
  end.

(** [cx'] has the line width, the colour and the stack of saved states of [cx]. *)
Definition same_state (cx cx' : Context) : Prop :=
  cx_gstate cx' = cx_gstate cx /\ cx_saved cx' = cx_saved cx.

(** * Properties *)

(** ** Numbers *)

Lemma double_to_int_of_int (z : Z) : double_to_int (int_to_double z) = z.
Proof.
  unfold double_to_int, int_to_double, inject_Z; simpl.
  apply Z.quot_1_r.
Qed.

Lemma double_to_int_integral (q : Q) (z : Z) :
  q == int_to_double z -> double_to_int q = z.
Proof.
  unfold Qeq, double_to_int, int_to_double, inject_Z; simpl.
  intros E. rewrite Z.mul_1_r in E. rewrite E.
  apply Z.quot_mul. discriminate.
Qed.

Lemma double_to_int_nonneg (q : Q) : 0 <= q -> (0 <= double_to_int q)%Z.
Proof.
  unfold Qle, double_to_int; simpl. intros Hq.
  apply Z.quot_pos; lia.
Qed.



(** ** Loops *)

Lemma copy_if_filter {A : Type} (pred : A -> bool) (src out : list A) :
  copy_if src out pred = out ++ filter pred src.
Proof.
  unfold copy_if. revert out.
  induction src as [|x src IH]; intros out; simpl.
  - now rewrite app_nil_r.
  - rewrite IH. destruct (pred x); [|reflexivity].
    now rewrite <- app_assoc.
Qed.

Lemma rows_loop (pins : list Pin) (l r : Z) :
  fold_left rows_step pins (l, r)
  = ((l + count_pins is_IN pins)%Z, (r + count_pins (fun p => negb (is_IN p)) pins)%Z).
Proof.
  unfold count_pins. revert l r.
  induction pins as [|p pins IH]; intros l r; cbn [fold_left filter].
  - simpl. now rewrite !Z.add_0_r.
  - assert (E : rows_step (l, r) p
               = if is_IN p then ((l + 1)%Z, r) else (l, (r + 1)%Z)) by reflexivity.
    rewrite E. destruct (is_IN p); rewrite IH; simpl List.length; f_equal; lia.
Qed.

Lemma minOuterWidth_step_max rec (m : Z) (p : Pin) :
  minOuterWidth_step rec m p = Z.max m (Pin_outerWidth rec p).
Proof.
  unfold minOuterWidth_step.
  destruct (Z.gtb_spec (Pin_outerWidth rec p) m); lia.
Qed.

Lemma minInnerWidth_step_max rec (l r : Z) (p : Pin) :
  minInnerWidth_step rec (l, r) p
  = (if is_IN p then Z.max l (Pin_innerWidth rec p) else l,
     if is_OUT p then Z.max r (Pin_innerWidth rec p) else r).
Proof.
  unfold minInnerWidth_step, is_IN, is_OUT, getDirection.
  destruct (pin_direction p); simpl;
    destruct (Z.gtb_spec (Pin_innerWidth rec p) l);
    destruct (Z.gtb_spec (Pin_innerWidth rec p) r); simpl; f_equal; lia.
Qed.

(** A running maximum started at [m0] over [l]. *)
Lemma fold_max_spec (l : list Z) (m0 : Z) :
  let m := fold_left Z.max l m0 in
  (m0 <= m)%Z /\ (forall x, In x l -> (x <= m)%Z) /\ (m = m0 \/ In m l).
Proof.
  revert m0. induction l as [|a l IH]; intros m0; simpl.
  - repeat split; [lia | tauto | now left].
  - destruct (IH (Z.max m0 a)) as (H1 & H2 & H3). repeat split.
    + lia.
    + intros x [<- | Hx]; [lia | now apply H2].
    + destruct H3 as [H3 | H3]; [| now right; right].
      destruct (Z.max_spec m0 a) as [[_ E] | [_ E]]; rewrite E in *;
        [right; left; now symmetry | now left].
Qed.

Lemma fold_max_or_zero (l : list Z) :
  (forall x, In x l -> (0 <= x)%Z) -> max_or_zero (fold_left Z.max l 0%Z) l.
Proof.
  intros Hpos. destruct (fold_max_spec l 0%Z) as (H1 & H2 & H3).
  destruct l as [|a l]; [left; now split|]. right. split; [|exact H2].
  destruct H3 as [H3 | H3]; [|exact H3].
  assert (Ha : (a <= fold_left Z.max (a :: l) 0)%Z) by (apply H2; now left).
  assert (Ha0 : (0 <= a)%Z) by (apply Hpos; now left).
  assert (E : a = fold_left Z.max (a :: l) 0%Z) by lia.
  rewrite <- E. now left.
Qed.

(** ** Rows and height of a section *)

Lemma not_IN_is_OUT_or_INOUT (p : Pin) :
  negb (is_IN p) = is_OUT p || is_INOUT p.
Proof.
  unfold is_IN, is_OUT, is_INOUT, getDirection. now destruct (pin_direction p).
Qed.

Lemma count_pins_not_IN (pins : list Pin) :
  count_pins (fun p => negb (is_IN p)) pins
  = count_pins (fun p => is_OUT p || is_INOUT p) pins.
Proof.
  unfold count_pins. f_equal. f_equal.
  apply filter_ext. exact not_IN_is_OUT_or_INOUT.
Qed.

Lemma count_pins_nonneg (f : Pin -> bool) (pins : list Pin) :
  (0 <= count_pins f pins)%Z.
Proof. unfold count_pins. lia. Qed.

Lemma count_pins_app (f : Pin -> bool) (l1 l2 : list Pin) :
  count_pins f (l1 ++ l2) = (count_pins f l1 + count_pins f l2)%Z.
Proof.
  unfold count_pins. rewrite filter_app, length_app. lia.
Qed.

Lemma Section_rows_max (s : SectionT) :
  Section_rows s
  = Z.max (count_pins is_IN (section_pins s))
          (count_pins (fun p => is_OUT p || is_INOUT p) (section_pins s)).
Proof.
  unfold Section_rows. rewrite rows_loop, count_pins_not_IN. simpl.
  destruct (Z.gtb_spec (count_pins is_IN (section_pins s))
              (count_pins (fun p => is_OUT p || is_INOUT p) (section_pins s))); lia.
Qed.


Lemma Section_height_int rec (s : SectionT) :
  Section_height rec s
  = (5 * (Section_rows s - 1) + Section_rows s * Pin_height rec + 2 * 10)%Z.
Proof.
  unfold Section_height. apply double_to_int_integral.
  unfold int_to_double, kPinSpacing, kTopBottomPadding.
  rewrite !inject_Z_plus, !inject_Z_mult. reflexivity.
Qed.

(** C2: [rows()] is the larger of the number of IN pins and the number of OUT or
    INOUT pins; [height()] is [pinSpacing*(rows()-1) + rows()*Pin.height() +
    2*topBottomPadding]; for the section of [main] (i_foo IN, o_bar OUT,
    i_foobar IN, i_barfoo IN) [rows()] is 3 and [height()] is
    [pinSpacing*2 + 3*Pin.height() + 2*topBottomPadding]. *)
Theorem Section_rows_height rec (s : SectionT) :
  Section_rows s
  = Z.max (count_pins is_IN (section_pins s))
          (count_pins (fun p => is_OUT p || is_INOUT p) (section_pins s))
  /\ int_to_double (Section_height rec s)
     == kPinSpacing * int_to_double (Section_rows s - 1)
        + int_to_double (Section_rows s) * int_to_double (Pin_height rec)
        + 2 * kTopBottomPadding
  /\ Section_rows main_pins = 3%Z
  /\ int_to_double (Section_height rec main_pins)
     == kPinSpacing * 2 + 3 * int_to_double (Pin_height rec) + 2 * kTopBottomPadding.
Proof.
  split; [apply Section_rows_max|].
  assert (G : forall t, int_to_double (Section_height rec t)
     == kPinSpacing * int_to_double (Section_rows t - 1)
        + int_to_double (Section_rows t) * int_to_double (Pin_height rec)
        + 2 * kTopBottomPadding).
  { intros t. rewrite Section_height_int.
    unfold int_to_double, kPinSpacing, kTopBottomPadding.
    rewrite !inject_Z_plus, !inject_Z_mult. reflexivity. }
  split; [apply G|]. split; [reflexivity|].
  rewrite (G main_pins).
  change (Section_rows main_pins) with 3%Z. reflexivity.
Qed.

(** C6: the height of a section with no pin is 15, the same for every font: an
    [int], and not negative. *)
Theorem Section_height_no_pins rec (name : string) :
  Section_height rec (Section_new name) = 15%Z
  /\ (0 <= Section_height rec (Section_new name))%Z.
Proof.
  assert (E : Section_height rec (Section_new name) = 15%Z).
  { rewrite Section_height_int. reflexivity. }
  rewrite E. split; [reflexivity | lia].
Qed.

(** ** Height against the pins added *)

Lemma Pin_height_nonneg rec :
  0 <= te_height (rec "Hello world"%string) -> (0 <= Pin_height rec)%Z.
Proof. intros H. unfold Pin_height. now apply double_to_int_nonneg. Qed.

Lemma count_pins_Permutation (f : Pin -> bool) (l1 l2 : list Pin) :
  Permutation l1 l2 -> count_pins f l1 = count_pins f l2.
Proof.
  unfold count_pins. intros P. f_equal.
  induction P as [| x l l' _ IH | x y l | l l' l'' _ IH1 _ IH2]; simpl.
  - reflexivity.
  - destruct (f x); simpl; congruence.
  - destruct (f x), (f y); reflexivity.
  - congruence.
Qed.

Lemma Section_height_of_counts rec (s s' : SectionT) :
  (0 <= Pin_height rec)%Z ->
  (count_pins is_IN (section_pins s) <= count_pins is_IN (section_pins s'))%Z ->
  (count_pins (fun p => is_OUT p || is_INOUT p) (section_pins s)
   <= count_pins (fun p => is_OUT p || is_INOUT p) (section_pins s'))%Z ->
  (Section_height rec s <= Section_height rec s')%Z.
Proof.
  intros HH HI HO. rewrite !Section_height_int, !Section_rows_max.
  set (a := count_pins is_IN (section_pins s)) in *.
  set (a' := count_pins is_IN (section_pins s')) in *.
  set (b := count_pins _ (section_pins s)) in *.
  set (b' := count_pins _ (section_pins s')) in *.
  assert (Hr : (Z.max a b <= Z.max a' b')%Z) by lia.
  nia.
Qed.

(** C8: with a font whose line height is not negative, [height()] does not
    decrease when a pin is added, nor when either column grows; it is the same
    for every order of the same pins, and depends only on the number of IN pins
    and the number of other pins. *)
Theorem Section_height_monotone_order rec
    (Hfont : 0 <= te_height (rec "Hello world"%string)) :
  (forall s pin, (Section_height rec s <= Section_height rec (Section_addPin s pin))%Z)
  /\ (forall s s',
        (count_pins is_IN (section_pins s) <= count_pins is_IN (section_pins s'))%Z ->
        (count_pins (fun p => is_OUT p || is_INOUT p) (section_pins s)
         <= count_pins (fun p => is_OUT p || is_INOUT p) (section_pins s'))%Z ->
        (Section_height rec s <= Section_height rec s')%Z)
  /\ (forall s s',
        Permutation (section_pins s) (section_pins s') ->
        Section_height rec s = Section_height rec s')
  /\ (forall s s',
        count_pins is_IN (section_pins s) = count_pins is_IN (section_pins s') ->
        count_pins (fun p => is_OUT p || is_INOUT p) (section_pins s)
        = count_pins (fun p => is_OUT p || is_INOUT p) (section_pins s') ->
        Section_height rec s = Section_height rec s').
Proof.
  pose proof (Pin_height_nonneg rec Hfont) as HH.
  assert (Hcounts : forall s s',
        count_pins is_IN (section_pins s) = count_pins is_IN (section_pins s') ->
        count_pins (fun p => is_OUT p || is_INOUT p) (section_pins s)
        = count_pins (fun p => is_OUT p || is_INOUT p) (section_pins s') ->
        Section_height rec s = Section_height rec s').
  { intros s s' E1 E2. rewrite !Section_height_int, !Section_rows_max.
    now rewrite E1, E2. }
  repeat split.
  - intros s pin. apply Section_height_of_counts; [exact HH | |];
      unfold Section_addPin; simpl; rewrite count_pins_app;
      match goal with |- (_ <= _ + count_pins ?f ?l)%Z =>
        pose proof (count_pins_nonneg f l) end; lia.
  - intros s s'. now apply Section_height_of_counts.
  - intros s s' P. apply Hcounts; now apply count_pins_Permutation.
  - exact Hcounts.
Qed.

(** ** Minimum widths of a section *)

Lemma minInnerWidth_loop rec (pins : list Pin) (l r : Z) :
  fold_left (minInnerWidth_step rec) pins (l, r)
  = (fold_left Z.max (map (Pin_innerWidth rec) (filter is_IN pins)) l,
     fold_left Z.max (map (Pin_innerWidth rec) (filter is_OUT pins)) r).
Proof.
  revert l r. induction pins as [|p pins IH]; intros l r; [reflexivity|].
  cbn [fold_left filter]. rewrite minInnerWidth_step_max, IH.
  destruct (is_IN p), (is_OUT p); reflexivity.
Qed.

Lemma minOuterWidth_loop rec (pins : list Pin) (m : Z) :
  fold_left (minOuterWidth_step rec) pins m
  = fold_left Z.max (map (Pin_outerWidth rec) pins) m.
Proof.
  revert m. induction pins as [|p pins IH]; intros m; [reflexivity|].
  cbn [fold_left map]. now rewrite minOuterWidth_step_max, IH.
Qed.

Lemma Section_minInnerWidth_int rec (s : SectionT) :
  Section_minInnerWidth rec s
  = (fold_left Z.max (map (Pin_innerWidth rec) (filter is_IN (section_pins s))) 0
     + 10
     + fold_left Z.max (map (Pin_innerWidth rec) (filter is_OUT (section_pins s))) 0)%Z.
Proof.
  unfold Section_minInnerWidth. rewrite minInnerWidth_loop.
  apply double_to_int_integral.
  unfold int_to_double, kTextSeparator. rewrite !inject_Z_plus. reflexivity.
Qed.

Lemma Section_minInnerWidth_nonneg rec (s : SectionT) :
  (0 <= Section_minInnerWidth rec s)%Z.
Proof.
  rewrite Section_minInnerWidth_int.
  destruct (fold_max_spec
              (map (Pin_innerWidth rec) (filter is_IN (section_pins s))) 0%Z) as (H1 & _).
  destruct (fold_max_spec
              (map (Pin_innerWidth rec) (filter is_OUT (section_pins s))) 0%Z) as (H2 & _).
  simpl in H1, H2. lia.
Qed.

Lemma Section_minOuterWidth_nonneg rec (s : SectionT) :
  (0 <= Section_minOuterWidth rec s)%Z.
Proof.
  unfold Section_minOuterWidth. rewrite minOuterWidth_loop.
  destruct (fold_max_spec (map (Pin_outerWidth rec) (section_pins s)) 0%Z) as (H1 & _).
  exact H1.
Qed.

Lemma Pin_innerWidth_nonneg rec (p : Pin) :
  nonneg_extents rec -> (0 <= Pin_innerWidth rec p)%Z.
Proof.
  intros Hfont. unfold Pin_innerWidth. apply double_to_int_nonneg.
  pose proof (Hfont (pin_name p)) as Hw.
  unfold kTextPadding. apply Qle_trans with (0 + 0); [apply Qle_refl|].
  apply Qplus_le_compat; [discriminate | exact Hw].
Qed.

Lemma filter_drop_INOUT (f : Pin -> bool) (pins : list Pin) :
  (forall p, is_INOUT p = true -> f p = false) ->
  filter f (filter (fun p => negb (is_INOUT p)) pins) = filter f pins.
Proof.
  intros Hf. induction pins as [|p pins IH]; [reflexivity|]. simpl.
  destruct (is_INOUT p) eqn:E; simpl.
  - now rewrite (Hf p E).
  - now rewrite IH.
Qed.

(** C4: with a font in which no text has a negative width, [minInnerWidth()] is the
    largest [innerWidth()] of the IN pins (0 if there is none), plus
    [textSeparator], plus the largest [innerWidth()] of the OUT pins (0 if there
    is none); dropping the INOUT pins leaves it unchanged, although [draw] puts
    every INOUT pin in its right column. *)
Theorem Section_minInnerWidth_columns rec (Hfont : nonneg_extents rec) (s : SectionT) :
  exists l r : Z,
    max_or_zero l (map (Pin_innerWidth rec)
                       (filter (fun p => PinDirection_eqb (pin_direction p) IN)
                               (section_pins s)))
    /\ max_or_zero r (map (Pin_innerWidth rec)
                          (filter (fun p => PinDirection_eqb (pin_direction p) OUT)
                                  (section_pins s)))
    /\ int_to_double (Section_minInnerWidth rec s)
       == int_to_double l + kTextSeparator + int_to_double r
    /\ Section_minInnerWidth rec s
       = Section_minInnerWidth rec
           (mkSection (filter (fun p => negb (is_INOUT p)) (section_pins s))
                      (section_name s))
    /\ (forall p, In p (section_pins s) -> pin_direction p = INOUT ->
                  In p (right_pins s)).
Proof.
  assert (Hpos : forall f x,
            In x (map (Pin_innerWidth rec) (filter f (section_pins s))) -> (0 <= x)%Z).
  { intros f x Hx. apply in_map_iff in Hx. destruct Hx as (p & <- & _).
    now apply Pin_innerWidth_nonneg. }
  exists (fold_left Z.max (map (Pin_innerWidth rec) (filter is_IN (section_pins s))) 0%Z),
         (fold_left Z.max (map (Pin_innerWidth rec) (filter is_OUT (section_pins s))) 0%Z).
  split; [apply fold_max_or_zero, Hpos|].
  split; [apply fold_max_or_zero, Hpos|].
  split; [|split].
  - rewrite Section_minInnerWidth_int.
    unfold int_to_double, kTextSeparator. rewrite !inject_Z_plus. reflexivity.
  - rewrite !Section_minInnerWidth_int. cbn [section_pins].
    rewrite !filter_drop_INOUT; [reflexivity | |];
      intros p; unfold is_INOUT, is_OUT, is_IN, getDirection;
      now destruct (pin_direction p).
  - intros p Hin Hdir. unfold right_pins. rewrite copy_if_filter. simpl.
    apply filter_In. split; [exact Hin|].
    unfold is_IN, getDirection. now rewrite Hdir.
Qed.

(** ** Bodies and their calls *)

Lemma calls_app {Child : Type} (b1 b2 : list (Act Child)) :
  calls (b1 ++ b2) = calls b1 ++ calls b2.
Proof. unfold calls. apply flat_map_app. Qed.

Lemma calls_prims {Child : Type} (cs : list Cmd) : calls (@prims Child cs) = [].
Proof. induction cs as [|c cs IH]; [reflexivity | exact IH]. Qed.

Lemma expand_app {Child : Type} (d : Child -> Rectangle -> list Cmd)
    (b1 b2 : list (Act Child)) :
  expand d (b1 ++ b2) = expand d b1 ++ expand d b2.
Proof. unfold expand. apply flat_map_app. Qed.

Lemma expand_prims {Child : Type} (d : Child -> Rectangle -> list Cmd) (cs : list Cmd) :
  expand d (prims cs) = cs.
Proof.
  induction cs as [|c cs IH]; [reflexivity|]. simpl. f_equal. exact IH.
Qed.

(** ** Drawing a symbol *)

Lemma widths_loop rec (sections : list SectionT) (i o : Z) :
  fold_left (widths_step rec) sections (i, o)
  = (fold_left Z.max (map (Section_minInnerWidth rec) sections) i,
     fold_left Z.max (map (Section_minOuterWidth rec) sections) o).
Proof.
  revert i o. induction sections as [|s sections IH]; intros i o; [reflexivity|].
  cbn [fold_left map]. rewrite <- IH. f_equal. unfold widths_step. f_equal.
  - destruct (Z.gtb_spec (Section_minInnerWidth rec s) i); lia.
  - destruct (Z.gtb_spec (Section_minOuterWidth rec s) o); lia.
Qed.

Lemma sections_loop (f : SectionT -> Rectangle) (sections : list SectionT)
    (body : list (Act SectionT)) :
  fold_left (fun body section => body ++ [call section (f section)]) sections body
  = body ++ map (fun section => call section (f section)) sections.
Proof.
  revert body. induction sections as [|s sections IH]; intros body; simpl.
  - now rewrite app_nil_r.
  - rewrite IH, <- app_assoc. reflexivity.
Qed.

Lemma calls_map_call {Child : Type} (f : Child -> Rectangle) (l : list Child) :
  calls (map (fun c => call c (f c)) l) = map (fun c => (c, f c)) l.
Proof.
  induction l as [|c l IH]; [reflexivity|]. simpl. f_equal. exact IH.
Qed.

(** The calls of [Section::draw] made by [Symbol::draw]: one per section, in
    order, each with the rectangle [r] of its turn of the loop. *)
Lemma Symbol_draw_calls ctx rec (y : SymbolT) :
  calls (Symbol_draw_body ctx rec y)
  = map (fun section =>
           (section,
            section_rect rec (fst (Symbol_widths rec y)) (snd (Symbol_widths rec y))
                         (ctx (symbol_name y)) section))
        (symbol_sections y).
Proof.
  unfold Symbol_draw_body. destruct (Symbol_widths rec y) as [i o]. cbn [fst snd].
  rewrite (sections_loop (section_rect rec i o (ctx (symbol_name y)))).
  rewrite calls_app, calls_prims. cbn [app].
  apply calls_map_call.
Qed.

(** C3: [Symbol::draw] draws every section of the symbol, and gives every one
    of them the same [x], the largest [minOuterWidth()] of the sections, and the
    same [width], the largest [minInnerWidth()] of the sections. *)
Theorem Symbol_draw_alignment ctx rec (y : SymbolT) :
  exists outerWidth innerWidth : Z,
    max_or_zero outerWidth (map (Section_minOuterWidth rec) (symbol_sections y))
    /\ max_or_zero innerWidth (map (Section_minInnerWidth rec) (symbol_sections y))
    /\ map fst (calls (Symbol_draw_body ctx rec y)) = symbol_sections y
    /\ forall section r,
         In (section, r) (calls (Symbol_draw_body ctx rec y)) ->
         rect_x r = int_to_double outerWidth
         /\ rect_width r = int_to_double innerWidth.
Proof.
  exists (snd (Symbol_widths rec y)), (fst (Symbol_widths rec y)).
  unfold Symbol_widths at 1 2. rewrite widths_loop. cbn [fst snd].
  split; [|split; [|split]].
  - apply fold_max_or_zero. intros x Hx. apply in_map_iff in Hx.
    destruct Hx as (s & <- & _). apply Section_minOuterWidth_nonneg.
  - apply fold_max_or_zero. intros x Hx. apply in_map_iff in Hx.
    destruct Hx as (s & <- & _). apply Section_minInnerWidth_nonneg.
  - rewrite Symbol_draw_calls, map_map. cbn [fst]. apply map_id.
  - intros section r Hin. rewrite Symbol_draw_calls in Hin.
    apply in_map_iff in Hin. destruct Hin as (s & E & _).
    inversion E; subst. split; reflexivity.
Qed.

(** Every rectangle [Symbol::draw] hands to a section: [x] and [width] are the
    shared widths, [height] is the section's own, and [y] is the height of the
    symbol's name plus [kNameSpacing], whatever the section's rank. *)
Lemma Symbol_draw_rects ctx rec (y : SymbolT) (section : SectionT) (r : Rectangle) :
  In (section, r) (calls (Symbol_draw_body ctx rec y)) ->
  rect_x r = int_to_double (snd (Symbol_widths rec y))
  /\ rect_y r = te_height (ctx (symbol_name y)) + kNameSpacing
  /\ rect_width r = int_to_double (fst (Symbol_widths rec y))
  /\ rect_height r = int_to_double (Section_height rec section).
Proof.
  intros Hin. rewrite Symbol_draw_calls in Hin.
  apply in_map_iff in Hin. destruct Hin as (s & E & _).
  inversion E; subst. repeat split.
Qed.

(** C1: on the symbol of [main] with a second section added, drawn with the
    fixed-pitch font, [Symbol::draw] gives both sections the top
    [name height + kNameSpacing]: the second section is not placed at the first
    one's top plus the first one's [height()]. *)
Theorem Symbol_draw_sections_same_top :
  exists s1 r1 s2 r2,
    calls (Symbol_draw_body mono_extents mono_extents two_sections)
    = [(s1, r1); (s2, r2)]
    /\ rect_y r1 == te_height (mono_extents (symbol_name two_sections)) + kNameSpacing
    /\ rect_y r2 == rect_y r1
    /\ Section_height mono_extents s1 = 57%Z
    /\ ~ rect_y r2 == rect_y r1 + int_to_double (Section_height mono_extents s1).
Proof.
  do 4 eexists. split; [vm_compute; reflexivity|].
  repeat split; try reflexivity. vm_compute. discriminate.
Qed.

(** ** Drawing a section *)

Lemma column_loop rec (ps : list Pin) (pin_rect : Rectangle) (body : list (Act Pin)) :
  fold_left (column_step rec) ps (pin_rect, body)
  = (column_end (Pin_height rec) pin_rect ps,
     body ++ map (fun c => call (fst c) (snd c))
                 (column_calls (Pin_height rec) pin_rect ps)).
Proof.
  revert pin_rect body. induction ps as [|p ps IH]; intros pin_rect body.
  - simpl. now rewrite app_nil_r.
  - cbn [fold_left column_calls column_end map]. unfold column_step at 2.
    rewrite IH, <- app_assoc. reflexivity.
Qed.

Lemma column_end_size (H : Z) (ps : list Pin) (pin_rect : Rectangle) :
  rect_width (column_end H pin_rect ps) = rect_width pin_rect
  /\ rect_height (column_end H pin_rect ps) = rect_height pin_rect.
Proof.
  revert pin_rect. induction ps as [|p ps IH]; intros pin_rect; simpl.
  - split; reflexivity.
  - destruct (IH (set_rect_y
                    (set_rect_y pin_rect (rect_y pin_rect + int_to_double H))
                    (rect_y pin_rect + int_to_double H + kPinSpacing))) as [E1 E2].
    split; [exact E1 | exact E2].
Qed.

Lemma column_calls_pins (H : Z) (ps : list Pin) (pin_rect : Rectangle) :
  map fst (column_calls H pin_rect ps) = ps.
Proof.
  revert pin_rect. induction ps as [|p ps IH]; intros pin_rect; simpl;
    [reflexivity | now rewrite IH].
Qed.

Lemma column_calls_x (H : Z) (ps : list Pin) (pin_rect : Rectangle) :
  Forall (fun c => rect_x (snd c) = rect_x pin_rect) (column_calls H pin_rect ps).
Proof.
  revert pin_rect. induction ps as [|p ps IH]; intros pin_rect; simpl.
  - constructor.
  - constructor; [reflexivity|].
    exact (IH (set_rect_y
                 (set_rect_y pin_rect (rect_y pin_rect + int_to_double H))
                 (rect_y pin_rect + int_to_double H + kPinSpacing))).
Qed.

Lemma column_calls_y (H : Z) (ps : list Pin) (pin_rect : Rectangle) (k : nat)
    (c : Pin * Rectangle) :
  nth_error (column_calls H pin_rect ps) k = Some c ->
  rect_y (snd c)
  == rect_y pin_rect + int_to_double (Z.of_nat (S k)) * int_to_double H
     + int_to_double (Z.of_nat k) * kPinSpacing.
Proof.
  revert pin_rect k. induction ps as [|p ps IH]; intros pin_rect k Hk.
  - destruct k; discriminate.
  - destruct k as [|k]; simpl in Hk.
    + inversion Hk; subst. cbn [snd rect_y set_rect_y].
      change (int_to_double (Z.of_nat 1)) with 1.
      change (int_to_double (Z.of_nat 0)) with 0. ring.
    + apply IH in Hk. rewrite Hk. cbn [rect_y set_rect_y].
      unfold int_to_double. rewrite !Nat2Z.inj_succ. unfold Z.succ.
      rewrite !inject_Z_plus. change (inject_Z 1) with 1. ring.
Qed.

(** [Section::draw], its two loops unrolled: the border, the left column
    anchored on the left side of [pos], the right column anchored on its right
    side, both started at the padded top of [pos]. *)
Lemma Section_draw_body_columns rec (s : SectionT) (pos : Rectangle) :
  Section_draw_body rec s pos
  = prims [save;
           rectangle (rect_x pos) (rect_y pos) (rect_width pos) (rect_height pos);
           stroke]
    ++ map (fun c => call (fst c) (snd c))
           (column_calls (Pin_height rec)
              (mkRectangle (rect_x pos) (rect_y pos + kTopBottomPadding) 0 0)
              (left_pins s))
    ++ map (fun c => call (fst c) (snd c))
           (column_calls (Pin_height rec)
              (mkRectangle (rect_x pos + rect_width pos)
                           (rect_y pos + kTopBottomPadding) 0 0)
              (right_pins s))
    ++ prims [restore].
Proof.
  unfold Section_draw_body. rewrite column_loop.
  set (r0 := mkRectangle (rect_x pos) (rect_y pos + kTopBottomPadding) 0 0).
  destruct (column_end_size (Pin_height rec) (left_pins s) r0) as [Ew Eh].
  unfold set_rect_x at 1, set_rect_y at 1. cbn [rect_x rect_y rect_width rect_height].
  rewrite column_loop, Ew, Eh. subst r0. cbn [rect_width rect_height].
  rewrite <- !app_assoc. reflexivity.
Qed.

Lemma calls_map_pairs {Child : Type} (l : list (Child * Rectangle)) :
  calls (map (fun c => call (fst c) (snd c)) l) = l.
Proof.
  induction l as [|[c r] l IH]; [reflexivity|]. simpl. f_equal. exact IH.
Qed.

Lemma Section_draw_calls rec (s : SectionT) (pos : Rectangle) :
  calls (Section_draw_body rec s pos)
  = column_calls (Pin_height rec)
      (mkRectangle (rect_x pos) (rect_y pos + kTopBottomPadding) 0 0) (left_pins s)
    ++ column_calls (Pin_height rec)
         (mkRectangle (rect_x pos + rect_width pos) (rect_y pos + kTopBottomPadding) 0 0)
         (right_pins s).
Proof.
  rewrite Section_draw_body_columns, !calls_app, !calls_prims, !calls_map_pairs.
  now rewrite app_nil_r.
Qed.

(** C5: [Section::draw] draws the IN pins, in their order in the section, on the
    left side of its rectangle, then all the other pins, in their order in the
    section, on the right side; for pins A (IN), B (OUT), C (IN), D (OUT) the
    left column is A, C and the right column is B, D. *)
Theorem Section_draw_partition rec (s : SectionT) (pos : Rectangle) :
  left_pins s
  = filter (fun p => PinDirection_eqb (pin_direction p) IN) (section_pins s)
  /\ right_pins s
     = filter (fun p => negb (PinDirection_eqb (pin_direction p) IN)) (section_pins s)
  /\ (exists cl cr,
        calls (Section_draw_body rec s pos) = cl ++ cr
        /\ map fst cl = left_pins s
        /\ map fst cr = right_pins s
        /\ Forall (fun c => rect_x (snd c) = rect_x pos) cl
        /\ Forall (fun c => rect_x (snd c) = rect_x pos + rect_width pos) cr)
  /\ (forall (nA tA nB tB nC tC nD tD name : string) (bA bB bC bD : bool),
        let A := mkPin IN nA tA bA in
        let B := mkPin OUT nB tB bB in
        let C := mkPin IN nC tC bC in
        let D := mkPin OUT nD tD bD in
        let s4 := mkSection [A; B; C; D] name in
        left_pins s4 = [A; C]
        /\ right_pins s4 = [B; D]
        /\ map (fun c => (fst c, rect_x (snd c))) (calls (Section_draw_body rec s4 pos))
           = [(A, rect_x pos); (C, rect_x pos);
              (B, rect_x pos + rect_width pos); (D, rect_x pos + rect_width pos)]).
Proof.
  split; [unfold left_pins; now rewrite copy_if_filter|].
  split; [unfold right_pins; now rewrite copy_if_filter|].
  split.
  - rewrite Section_draw_calls. do 2 eexists. split; [reflexivity|].
    split; [apply column_calls_pins|]. split; [apply column_calls_pins|].
    split; [exact (column_calls_x _ _
                     (mkRectangle (rect_x pos) (rect_y pos + kTopBottomPadding) 0 0))|].
    exact (column_calls_x _ _
             (mkRectangle (rect_x pos + rect_width pos)
                          (rect_y pos + kTopBottomPadding) 0 0)).
  - intros. split; [reflexivity|]. split; [reflexivity|].
    rewrite Section_draw_calls. reflexivity.
Qed.

(** C10: [Section::draw] uses the height of its rectangle in the border
    rectangle only.  With another height the pins drawn and their rectangles are
    the same, and the calls on the context are the same but for the height given
    to [rectangle].  The pins of both columns go down from the top of the
    rectangle: row [k] is at [row_y], whatever the height. *)
Theorem Section_draw_height_only_border ctx rec (s : SectionT) (pos : Rectangle) (h : Q) :
  let pos' := mkRectangle (rect_x pos) (rect_y pos) (rect_width pos) h in
  calls (Section_draw_body rec s pos') = calls (Section_draw_body rec s pos)
  /\ (exists rest,
        Section_draw ctx rec s pos
        = save :: rectangle (rect_x pos) (rect_y pos) (rect_width pos) (rect_height pos)
               :: rest
        /\ Section_draw ctx rec s pos'
           = save :: rectangle (rect_x pos) (rect_y pos) (rect_width pos) h :: rest)
  /\ (exists cl cr,
        calls (Section_draw_body rec s pos) = cl ++ cr
        /\ List.length cl = List.length (left_pins s)
        /\ List.length cr = List.length (right_pins s)
        /\ (forall k c, nth_error cl k = Some c ->
                        rect_y (snd c) == row_y (Pin_height rec) pos k)
        /\ (forall k c, nth_error cr k = Some c ->
                        rect_y (snd c) == row_y (Pin_height rec) pos k)).
Proof.
  intros pos'. split; [|split].
  - rewrite !Section_draw_calls. reflexivity.
  - unfold Section_draw. rewrite !Section_draw_body_columns.
    rewrite !expand_app, !expand_prims. subst pos'. cbn [rect_x rect_y rect_width rect_height].
    eexists. split; reflexivity.
  - rewrite Section_draw_calls. do 2 eexists. split; [reflexivity|].
    split; [now rewrite <- (column_calls_pins (Pin_height rec) (left_pins s)
                              (mkRectangle (rect_x pos) (rect_y pos + kTopBottomPadding) 0 0))
                at 2; rewrite length_map|].
    split; [now rewrite <- (column_calls_pins (Pin_height rec) (right_pins s)
                              (mkRectangle (rect_x pos + rect_width pos)
                                           (rect_y pos + kTopBottomPadding) 0 0))
                at 2; rewrite length_map|].
    split; intros k c Hk; apply column_calls_y in Hk; rewrite Hk; reflexivity.
Qed.

(** ** Drawing a pin *)

(** What an IN pin paints: its name from [kTextPadding] right of the anchor, its
    stem from the anchor to [kStemLength] left of it, its type ending
    [kTextPadding + kStemLength] left of the anchor. *)
Lemma painted_Pin_draw_IN ctx (name type : string) (bus : bool) (pos : Rectangle) :
  painted ctx (Pin_draw ctx (mkPin IN name type bus) pos)
  = [text_mark name (rect_x pos + kTextPadding) (rect_y pos)
               (te_width (ctx name)) (0, 0, 0);
     line_mark (rect_x pos) (rect_y pos + te_y_bearing (ctx name) / 2)
               (rect_x pos - kStemLength) (rect_y pos + te_y_bearing (ctx name) / 2)
               (if bus then kBusStemWidth else kWireStemWidth) (0, 0, 0);
     text_mark type (rect_x pos - kTextPadding - kStemLength + - te_width (ctx type))
               (rect_y pos + 0) (te_width (ctx type)) (0.5, 0.5, 0.5)].
Proof. reflexivity. Qed.

(** What a pin of another direction paints: its name ending [kTextPadding] left
    of the anchor, its stem from the anchor to [kStemLength] right of it, its
    type from [kTextPadding + kStemLength] right of the anchor. *)
Lemma painted_Pin_draw_not_IN ctx (d : PinDirection) (name type : string) (bus : bool)
    (pos : Rectangle) :
  d <> IN ->
  painted ctx (Pin_draw ctx (mkPin d name type bus) pos)
  = [text_mark name (rect_x pos - kTextPadding + - te_width (ctx name)) (rect_y pos + 0)
               (te_width (ctx name)) (0, 0, 0);
     line_mark (rect_x pos) (rect_y pos + te_y_bearing (ctx name) / 2)
               (rect_x pos + kStemLength) (rect_y pos + te_y_bearing (ctx name) / 2)
               (if bus then kBusStemWidth else kWireStemWidth) (0, 0, 0);
     text_mark type (rect_x pos + kTextPadding + kStemLength)
               (rect_y pos) (te_width (ctx type)) (0.5, 0.5, 0.5)].
Proof. destruct d; [congruence | reflexivity | reflexivity]. Qed.

(** C7: an IN pin and an OUT pin with the same name, type and bus flag, drawn at
    the same anchor, paint mirror images in the vertical line through the
    anchor: the IN name starts [kTextPadding] right of the anchor and the OUT
    name ends [kTextPadding] left of it, the stems go [kStemLength] left and
    right, and the types lie beyond [kTextPadding + kStemLength] on either
    side. *)
Theorem Pin_draw_mirror ctx (name type : string) (bus : bool) (pos : Rectangle) :
  let a := rect_x pos in
  let y := rect_y pos in
  let ys := rect_y pos + te_y_bearing (ctx name) / 2 in
  let wn := te_width (ctx name) in
  let wt := te_width (ctx type) in
  let lw := if bus then kBusStemWidth else kWireStemWidth in
  let pin_in := painted ctx (Pin_draw ctx (mkPin IN name type bus) pos) in
  let pin_out := painted ctx (Pin_draw ctx (mkPin OUT name type bus) pos) in
  Forall2 Mark_equiv pin_out (map (mirror a) pin_in)
  /\ Forall2 Mark_equiv pin_in
       [text_mark name (a + kTextPadding) y wn (0, 0, 0);
        line_mark a ys (a - kStemLength) ys lw (0, 0, 0);
        text_mark type (a - (kTextPadding + kStemLength) - wt) y wt (0.5, 0.5, 0.5)]
  /\ Forall2 Mark_equiv pin_out
       [text_mark name (a - kTextPadding - wn) y wn (0, 0, 0);
        line_mark a ys (a + kStemLength) ys lw (0, 0, 0);
        text_mark type (a + (kTextPadding + kStemLength)) y wt (0.5, 0.5, 0.5)].
Proof.
  intros a y ys wn wt lw pin_in pin_out.
  subst pin_in pin_out. rewrite painted_Pin_draw_IN.
  rewrite (painted_Pin_draw_not_IN ctx OUT) by discriminate.
  fold a y ys wn wt lw. unfold kTextPadding, kStemLength.
  repeat split; repeat constructor; simpl; try reflexivity; ring.
Qed.

(** C9: when the empty string has no width, a pin with an empty type has
    [outerWidth() = kStemLength + kTextPadding], and a pin with an empty name
    has [innerWidth() = kTextPadding]; a pin with an empty type still paints
    its name in black and its stem of length [kStemLength] from the anchor. *)
Theorem Pin_empty_type_or_name ctx rec (Hempty : empty_extents rec) :
  (forall d name bus,
      int_to_double (Pin_outerWidth rec (mkPin d name ""%string bus))
      == kStemLength + kTextPadding)
  /\ (forall d type bus,
        int_to_double (Pin_innerWidth rec (mkPin d ""%string type bus))
        == kTextPadding)
  /\ (forall d name bus pos,
        let marks := painted ctx (Pin_draw ctx (mkPin d name ""%string bus) pos) in
        let ys := rect_y pos + te_y_bearing (ctx name) / 2 in
        (exists x y, In (text_mark name x y (te_width (ctx name)) (0, 0, 0)) marks)
        /\ In (line_mark (rect_x pos) ys
                         (if PinDirection_eqb d IN
                          then rect_x pos - kStemLength else rect_x pos + kStemLength)
                         ys
                         (if bus then kBusStemWidth else kWireStemWidth) (0, 0, 0))
              marks).
Proof.
  unfold empty_extents in Hempty. split; [|split].
  - intros d name bus. unfold Pin_outerWidth. cbn [pin_type].
    rewrite (double_to_int_integral _ 20); [reflexivity|].
    rewrite Hempty. reflexivity.
  - intros d type bus. unfold Pin_innerWidth. cbn [pin_name].
    rewrite (double_to_int_integral _ 5); [reflexivity|].
    rewrite Hempty. reflexivity.
  - intros d name bus pos marks ys. subst marks ys.
    destruct d.
    + rewrite painted_Pin_draw_IN. split; [do 2 eexists|]; simpl; auto.
    + rewrite (painted_Pin_draw_not_IN ctx OUT) by discriminate.
      split; [do 2 eexists|]; simpl; auto.
    + rewrite (painted_Pin_draw_not_IN ctx INOUT) by discriminate.
      split; [do 2 eexists|]; simpl; auto.
Qed.

(** ** The program of [main] under the fixed-pitch font *)

Lemma mono_extents_nonneg : nonneg_extents mono_extents.
Proof.
  intros s. unfold mono_extents, int_to_double. cbn [te_width].
  rewrite <- (Zle_Qle 0). lia.
Qed.

Lemma mono_extents_empty : empty_extents mono_extents.
Proof. reflexivity. Qed.

Example main_pins_sizes :
  Section_rows main_pins = 3%Z
  /\ Pin_height mono_extents = 9%Z
  /\ Section_height mono_extents main_pins = 57%Z
  /\ Section_minInnerWidth mono_extents main_pins = 98%Z
  /\ Section_minOuterWidth mono_extents main_pins = 92%Z.
Proof. repeat split; reflexivity. Qed.

Example main_pins_columns :
  left_pins main_pins = [pin1; pin3; pin4] /\ right_pins main_pins = [pin2].
Proof. split; reflexivity. Qed.

Example main_symbol_section_rect :
  map snd (calls (Symbol_draw_body mono_extents mono_extents main_symbol))
  = [mkRectangle (int_to_double 92) (9 + kNameSpacing)
                 (int_to_double 98) (int_to_double 57)].
Proof. reflexivity. Qed.

(** An INOUT pin with the longest name of its section widens nothing. *)
Example INOUT_not_measured :
  Section_minInnerWidth mono_extents
    (Section_addPin main_pins (mkPin INOUT "io_a_very_long_name" "logic" false))
  = Section_minInnerWidth mono_extents main_pins.
Proof. reflexivity. Qed.

Lemma Section_height_monotone_order_witness :
  0 <= te_height (mono_extents "Hello world"%string)
  /\ (Section_height mono_extents main_pins
      <= Section_height mono_extents (Section_addPin main_pins pin2))%Z
  /\ Section_height mono_extents (mkSection [pin4; pin3; pin2; pin1] ""%string)
     = Section_height mono_extents main_pins.
Proof.
  assert (Hfont : 0 <= te_height (mono_extents "Hello world"%string))
    by (vm_compute; discriminate).
  pose proof (Section_height_monotone_order mono_extents Hfont) as (Hadd & _ & _ & Hcount).
  split; [exact Hfont|]. split.
  - exact (Hadd main_pins pin2).
  - apply Hcount; reflexivity.
Defined.

Lemma Section_minInnerWidth_columns_witness :
  nonneg_extents mono_extents
  /\ exists l r : Z,
       max_or_zero l (map (Pin_innerWidth mono_extents) [pin1; pin3; pin4])
       /\ max_or_zero r (map (Pin_innerWidth mono_extents) [pin2])
       /\ int_to_double (Section_minInnerWidth mono_extents main_pins)
          == int_to_double l + kTextSeparator + int_to_double r.
Proof.
  split; [exact mono_extents_nonneg|].
  destruct (Section_minInnerWidth_columns mono_extents mono_extents_nonneg main_pins)
    as (l & r & Hl & Hr & E & _).
  exists l, r. repeat split; assumption.
Defined.

Lemma Pin_empty_type_or_name_witness :
  empty_extents mono_extents
  /\ int_to_double (Pin_outerWidth mono_extents (mkPin IN "clk" ""%string false))
     == kStemLength + kTextPadding
  /\ int_to_double (Pin_innerWidth mono_extents (mkPin OUT ""%string "logic" false))
     == kTextPadding.
Proof.
  pose proof (Pin_empty_type_or_name mono_extents mono_extents mono_extents_empty)
    as (Ho & Hi & _).
  split; [exact mono_extents_empty|]. split.
  - exact (Ho IN "clk"%string false).
  - exact (Hi OUT "logic"%string false).
Defined.

(** * Further properties *)

(** ** What the [draw] methods leave on the context *)

Lemma Context_run_app ctx (cx : Context) (cs1 cs2 : list Cmd) :
  Context_run ctx cx (cs1 ++ cs2) = Context_run ctx (Context_run ctx cx cs1) cs2.
Proof. unfold Context_run. apply fold_left_app. Qed.

Lemma drawn_trans (cx0 cx1 cx2 : Context) (ms1 ms2 : list Mark) :
  drawn cx0 cx1 ms1 -> drawn cx1 cx2 ms2 -> drawn cx0 cx2 (ms1 ++ ms2).
Proof.
  intros (P1 & G1 & S1 & M1) (P2 & G2 & S2 & M2). repeat split.
  - exact P2.
  - congruence.
  - congruence.
  - rewrite M2, M1. now rewrite app_assoc.
Qed.

(** [Pin::draw] on a context with nothing in its path. *)
Lemma Pin_draw_drawn ctx (p : Pin) (pos : Rectangle) (cx : Context) :
  cx_path cx = [] ->
  drawn cx (Context_run ctx cx (Pin_draw ctx p pos))
        (pin_marks ctx (gs_rgb (cx_gstate cx)) p pos).
Proof.
  destruct cx as [pt st hl path g saved marks]. cbn [cx_path cx_gstate]. intros ->.
  destruct p as [d name type bus].
  destruct d; unfold drawn; cbn; repeat split; now rewrite <- !app_assoc.
Qed.

Lemma pins_drawn ctx (l : list (Pin * Rectangle)) (cx : Context) :
  cx_path cx = [] ->
  drawn cx
        (Context_run ctx cx (flat_map (fun c => Pin_draw ctx (fst c) (snd c)) l))
        (flat_map (fun c => pin_marks ctx (gs_rgb (cx_gstate cx)) (fst c) (snd c)) l).
Proof.
  revert cx. induction l as [|[p r] l IH]; intros cx Hpath.
  - simpl. repeat split; [exact Hpath | now rewrite app_nil_r].
  - cbn [flat_map fst snd]. rewrite Context_run_app.
    pose proof (Pin_draw_drawn ctx p r cx Hpath) as D1.
    pose proof D1 as (P1 & G1 & _).
    specialize (IH _ P1). rewrite G1 in IH.
    exact (drawn_trans _ _ _ _ _ D1 IH).
Qed.

Lemma expand_calls {Child : Type} (d : Child -> Rectangle -> list Cmd)
    (l : list (Child * Rectangle)) :
  expand d (map (fun c => call (fst c) (snd c)) l)
  = flat_map (fun c => d (fst c) (snd c)) l.
Proof.
  induction l as [|[c r] l IH]; [reflexivity|]. simpl. now rewrite <- IH.
Qed.

(** The calls [Section::draw] makes on the context: the border, the calls of
    each pin it draws, the closing [restore]. *)
Lemma Section_draw_cmds ctx rec (s : SectionT) (pos : Rectangle) :
  Section_draw ctx rec s pos
  = [save;
     rectangle (rect_x pos) (rect_y pos) (rect_width pos) (rect_height pos);
     stroke]
    ++ flat_map (fun c => Pin_draw ctx (fst c) (snd c))
                (calls (Section_draw_body rec s pos))
    ++ [restore].
Proof.
  unfold Section_draw. rewrite Section_draw_calls, Section_draw_body_columns.
  rewrite !expand_app, !expand_prims, !expand_calls, flat_map_app.
  now rewrite <- !app_assoc.
Qed.

(** The calls [Symbol::draw] makes on the context: the name, then the calls of
    each section it draws. *)
Lemma Symbol_draw_cmds ctx rec (y : SymbolT) :
  Symbol_draw ctx rec y
  = [save;
     move_to (int_to_double (snd (Symbol_widths rec y))
              + (int_to_double (fst (Symbol_widths rec y))
                 - te_width (ctx (symbol_name y))) / 2)
             (te_height (ctx (symbol_name y)));
     show_text (symbol_name y);
     restore]
    ++ flat_map (fun c => Section_draw ctx rec (fst c) (snd c))
                (calls (Symbol_draw_body ctx rec y)).
Proof.
  rewrite Symbol_draw_calls. unfold Symbol_draw, Symbol_draw_body.
  destruct (Symbol_widths rec y) as [i o]. cbn [fst snd].
  rewrite (sections_loop (section_rect rec i o (ctx (symbol_name y)))).
  rewrite expand_app, expand_prims. f_equal.
  rewrite <- (expand_calls (Section_draw ctx rec)). f_equal.
  now rewrite map_map.
Qed.

Lemma Section_draw_drawn ctx rec (s : SectionT) (pos : Rectangle) (cx : Context) :
  cx_path cx = [] ->
  drawn cx (Context_run ctx cx (Section_draw ctx rec s pos))
        (section_marks ctx rec (cx_gstate cx) s pos).
Proof.
  intros Hpath. rewrite Section_draw_cmds, !Context_run_app.
  set (cx1 := Context_run ctx cx [save; rectangle _ _ _ _; stroke]).
  assert (D1 : cx_path cx1 = [] /\ cx_gstate cx1 = cx_gstate cx
               /\ cx_saved cx1 = cx_gstate cx :: cx_saved cx
               /\ cx_marks cx1 = cx_marks cx ++ border_marks (cx_gstate cx) pos).
  { subst cx1. destruct cx as [pt st hl path g saved marks].
    cbn [cx_path] in Hpath. subst path. repeat split. }
  destruct D1 as (P1 & G1 & S1 & M1).
  pose proof (pins_drawn ctx (calls (Section_draw_body rec s pos)) cx1 P1)
    as (P2 & G2 & S2 & M2).
  set (cx2 := Context_run ctx cx1 _) in *.
  unfold section_marks, drawn, Context_run. cbn [fold_left Context_step].
  rewrite S2, S1. cbn [cx_path cx_gstate cx_saved cx_marks].
  repeat split.
  - exact P2.
  - rewrite M2, M1, G1. now rewrite app_assoc.
Qed.

Lemma sections_drawn ctx rec (l : list (SectionT * Rectangle)) (cx : Context) :
  cx_path cx = [] ->
  drawn cx
        (Context_run ctx cx (flat_map (fun c => Section_draw ctx rec (fst c) (snd c)) l))
        (flat_map (fun c => section_marks ctx rec (cx_gstate cx) (fst c) (snd c)) l).
Proof.
  revert cx. induction l as [|[s r] l IH]; intros cx Hpath.
  - simpl. repeat split; [exact Hpath | now rewrite app_nil_r].
  - cbn [flat_map fst snd]. rewrite Context_run_app.
    pose proof (Section_draw_drawn ctx rec s r cx Hpath) as D1.
    pose proof D1 as (P1 & G1 & _).
    specialize (IH _ P1). rewrite G1 in IH.
    exact (drawn_trans _ _ _ _ _ D1 IH).
Qed.

(** [Symbol::draw] on a context with nothing in its path: the name in the
    colour of the context, then every section. *)
Lemma Symbol_draw_drawn ctx rec (y : SymbolT) (cx : Context) :
  cx_path cx = [] ->
  drawn cx (Context_run ctx cx (Symbol_draw ctx rec y))
        (text_mark (symbol_name y)
                   (int_to_double (snd (Symbol_widths rec y))
                    + (int_to_double (fst (Symbol_widths rec y))
                       - te_width (ctx (symbol_name y))) / 2)
                   (te_height (ctx (symbol_name y)))
                   (te_width (ctx (symbol_name y)))
                   (gs_rgb (cx_gstate cx))
         :: flat_map (fun c => section_marks ctx rec (cx_gstate cx) (fst c) (snd c))
                     (calls (Symbol_draw_body ctx rec y))).
Proof.
  intros Hpath. rewrite Symbol_draw_cmds, Context_run_app.
  set (cx1 := Context_run ctx cx [save; move_to _ _; show_text _; restore]).
  assert (D1 : drawn cx cx1
                 [text_mark (symbol_name y)
                    (int_to_double (snd (Symbol_widths rec y))
                     + (int_to_double (fst (Symbol_widths rec y))
                        - te_width (ctx (symbol_name y))) / 2)
                    (te_height (ctx (symbol_name y)))
                    (te_width (ctx (symbol_name y)))
                    (gs_rgb (cx_gstate cx))]).
  { subst cx1. destruct cx as [pt st hl path g saved marks].
    cbn [cx_path] in Hpath. subst path. repeat split. }
  pose proof D1 as (P1 & G1 & _).
  pose proof (sections_drawn ctx rec (calls (Symbol_draw_body ctx rec y)) cx1 P1) as D2.
  rewrite G1 in D2.
  exact (drawn_trans _ _ _ _ _ D1 D2).
Qed.

(** X1: on a new context [Symbol::draw] paints the name of the symbol in black,
    then, section by section, the four sides of the section's rectangle with
    the line width 2 of a new context ([kBorderThickness] is never set) and the
    name, stem and type of each pin the section draws; it paints nothing else. *)
Theorem Symbol_draw_painted ctx rec (y : SymbolT) :
  painted ctx (Symbol_draw ctx rec y)
  = text_mark (symbol_name y)
              (int_to_double (snd (Symbol_widths rec y))
               + (int_to_double (fst (Symbol_widths rec y))
                  - te_width (ctx (symbol_name y))) / 2)
              (te_height (ctx (symbol_name y)))
              (te_width (ctx (symbol_name y)))
              (0, 0, 0)
    :: flat_map (fun c => border_marks (mkGState 2 (0, 0, 0)) (snd c)
                          ++ flat_map (fun d => pin_marks ctx (0, 0, 0) (fst d) (snd d))
                                      (calls (Section_draw_body rec (fst c) (snd c))))
                (calls (Symbol_draw_body ctx rec y)).
Proof.
  destruct (Symbol_draw_drawn ctx rec y Context_create eq_refl) as (_ & _ & _ & M).
  unfold painted. rewrite M. reflexivity.
Qed.

Lemma same_state_flat_map ctx {A : Type} (f : A -> list Cmd) (l : list A) :
  (forall a cx, same_state cx (Context_run ctx cx (f a))) ->
  forall cx, same_state cx (Context_run ctx cx (flat_map f l)).
Proof.
  intros Hf. induction l as [|a l IH]; intros cx.
  - split; reflexivity.
  - cbn [flat_map]. rewrite Context_run_app.
    destruct (Hf a cx) as [G1 S1]. destruct (IH (Context_run ctx cx (f a))) as [G2 S2].
    split; congruence.
Qed.

Lemma Pin_draw_same_state ctx (p : Pin) (pos : Rectangle) (cx : Context) :
  same_state cx (Context_run ctx cx (Pin_draw ctx p pos)).
Proof.
  destruct cx as [pt st hl path g saved marks]. destruct p as [d name type bus].
  destruct d; split; reflexivity.
Qed.

Lemma Section_draw_same_state ctx rec (s : SectionT) (pos : Rectangle) (cx : Context) :
  same_state cx (Context_run ctx cx (Section_draw ctx rec s pos)).
Proof.
  rewrite Section_draw_cmds, !Context_run_app.
  set (cx1 := Context_run ctx cx [save; rectangle _ _ _ _; stroke]).
  assert (D1 : cx_gstate cx1 = cx_gstate cx
               /\ cx_saved cx1 = cx_gstate cx :: cx_saved cx).
  { subst cx1. destruct cx as [pt st hl path g saved marks]. split; reflexivity. }
  destruct D1 as [G1 S1].
  destruct (same_state_flat_map ctx (fun c => Pin_draw ctx (fst c) (snd c))
              (calls (Section_draw_body rec s pos))
              (fun c cx => Pin_draw_same_state ctx (fst c) (snd c) cx) cx1) as [G2 S2].
  set (cx2 := Context_run ctx cx1 _) in *.
  unfold same_state, Context_run. cbn [fold_left Context_step].
  rewrite S2, S1. cbn [cx_gstate cx_saved]. split; reflexivity.
Qed.

(** X2: whatever the context holds when they are called (line width, colour,
    saved states, a path under construction), [Pin::draw], [Section::draw] and
    [Symbol::draw] return with the line width, the colour and the stack of saved
    states they found: every [save] is closed by its [restore]. *)
Theorem draw_same_state ctx rec (cx : Context) :
  (forall p pos, same_state cx (Context_run ctx cx (Pin_draw ctx p pos)))
  /\ (forall s pos, same_state cx (Context_run ctx cx (Section_draw ctx rec s pos)))
  /\ (forall y, same_state cx (Context_run ctx cx (Symbol_draw ctx rec y))).
Proof.
  split; [|split].
  - intros p pos. apply Pin_draw_same_state.
  - intros s pos. apply Section_draw_same_state.
  - intros y. rewrite Symbol_draw_cmds, Context_run_app.
    set (cx1 := Context_run ctx cx [save; move_to _ _; show_text _; restore]).
    assert (D1 : same_state cx cx1).
    { subst cx1. destruct cx as [pt st hl path g saved marks].
      destruct pt as [[px py]|]; split; reflexivity. }
    destruct D1 as [G1 S1].
    destruct (same_state_flat_map ctx (fun c => Section_draw ctx rec (fst c) (snd c))
                (calls (Symbol_draw_body ctx rec y))
                (fun c cx => Section_draw_same_state ctx rec (fst c) (snd c) cx) cx1)
      as [G2 S2].
    split; congruence.
Qed.

(** ** Which pins a section draws *)

Lemma filter_partition_Permutation {A : Type} (f : A -> bool) (l : list A) :
  Permutation (filter f l ++ filter (fun x => negb (f x)) l) l.
Proof.
  induction l as [|a l IH]; [constructor|]. simpl.
  destruct (f a); simpl.
  - now constructor.
  - apply Permutation_sym, Permutation_cons_app, Permutation_sym, IH.
Qed.

(** X3: [Section::draw] draws every pin of the section once: the pins it draws
    are the pins of the section in another order, whatever their directions. *)
Theorem Section_draw_every_pin_once rec (s : SectionT) (pos : Rectangle) :
  Permutation (map fst (calls (Section_draw_body rec s pos))) (section_pins s)
  /\ List.length (calls (Section_draw_body rec s pos)) = List.length (section_pins s).
Proof.
  assert (P : Permutation (map fst (calls (Section_draw_body rec s pos)))
                          (section_pins s)).
  { rewrite Section_draw_calls, map_app, !column_calls_pins.
    unfold left_pins, right_pins. rewrite !copy_if_filter. cbn [app].
    apply filter_partition_Permutation. }
  split; [exact P|].
  rewrite <- (Permutation_length P). now rewrite length_map.
Qed.

(** ** Widths *)

Lemma double_to_int_floor (q : Q) : 0 <= q -> double_to_int q = Qfloor q.
Proof.
  destruct q as [n d]. unfold Qle, double_to_int, Qfloor. simpl. intros Hq.
  apply Z.quot_div_nonneg; lia.
Qed.

Lemma double_to_int_le (q : Q) : 0 <= q -> int_to_double (double_to_int q) <= q.
Proof.
  intros Hq. rewrite (double_to_int_floor q Hq). apply Qfloor_le.
Qed.

Lemma double_to_int_lt (q : Q) : 0 <= q -> q < int_to_double (double_to_int q) + 1.
Proof.
  intros Hq. rewrite (double_to_int_floor q Hq).
  pose proof (Qlt_floor q) as H. unfold int_to_double.
  rewrite inject_Z_plus in H. exact H.
Qed.

Lemma Pin_outerWidth_nonneg rec (p : Pin) :
  nonneg_extents rec -> (0 <= Pin_outerWidth rec p)%Z.
Proof.
  intros Hfont. unfold Pin_outerWidth. apply double_to_int_nonneg.
  pose proof (Hfont (pin_type p)) as Hw.
  unfold kStemLength, kTextPadding. lra.
Qed.

Lemma fold_max_app (l : list Z) (a m : Z) :
  fold_left Z.max (l ++ [a]) m = Z.max (fold_left Z.max l m) a.
Proof. now rewrite fold_left_app. Qed.

(** X4: with a font in which no text has a negative width, [minOuterWidth()] is
    the largest [outerWidth()] of the pins of the section, whatever their
    directions, and 0 for a section with no pin. *)
Theorem Section_minOuterWidth_max rec (Hfont : nonneg_extents rec) (s : SectionT) :
  max_or_zero (Section_minOuterWidth rec s) (map (Pin_outerWidth rec) (section_pins s)).
Proof.
  unfold Section_minOuterWidth. rewrite minOuterWidth_loop.
  apply fold_max_or_zero. intros x Hx. apply in_map_iff in Hx.
  destruct Hx as (p & <- & _). now apply Pin_outerWidth_nonneg.
Qed.

(** X5: [addPin] puts the pin below the pins already in its column and leaves
    the other column as it is; [rows()] grows by one at most,
    [minOuterWidth()] becomes the larger of its old value and the
    [outerWidth()] of the pin, and [minInnerWidth()] does not shrink. *)
Theorem Section_addPin_grows rec (s : SectionT) (pin : Pin) :
  left_pins (Section_addPin s pin)
  = (if PinDirection_eqb (pin_direction pin) IN
     then left_pins s ++ [pin] else left_pins s)
  /\ right_pins (Section_addPin s pin)
     = (if PinDirection_eqb (pin_direction pin) IN
        then right_pins s else right_pins s ++ [pin])
  /\ (Section_rows s <= Section_rows (Section_addPin s pin) <= Section_rows s + 1)%Z
  /\ Section_minOuterWidth rec (Section_addPin s pin)
     = Z.max (Section_minOuterWidth rec s) (Pin_outerWidth rec pin)
  /\ (Section_minInnerWidth rec s <= Section_minInnerWidth rec (Section_addPin s pin))%Z.
Proof.
  assert (Hin : is_IN pin = PinDirection_eqb (pin_direction pin) IN) by reflexivity.
  split; [|split; [|split; [|split]]].
  - unfold left_pins, Section_addPin. cbn [section_pins].
    rewrite !copy_if_filter, filter_app. cbn [app filter]. rewrite Hin.
    destruct (PinDirection_eqb (pin_direction pin) IN);
      [reflexivity | apply app_nil_r].
  - unfold right_pins, Section_addPin. cbn [section_pins].
    rewrite !copy_if_filter, filter_app. cbn [app filter]. rewrite Hin.
    destruct (PinDirection_eqb (pin_direction pin) IN); cbn [negb];
      [apply app_nil_r | reflexivity].
  - rewrite !Section_rows_max. unfold Section_addPin. cbn [section_pins].
    rewrite !count_pins_app.
    assert (E1 : count_pins is_IN [pin] = if is_IN pin then 1%Z else 0%Z)
      by (unfold count_pins; cbn [filter]; now destruct (is_IN pin)).
    assert (E2 : count_pins (fun p => is_OUT p || is_INOUT p) [pin]
                 = if is_IN pin then 0%Z else 1%Z)
      by (unfold count_pins; cbn [filter]; rewrite <- not_IN_is_OUT_or_INOUT;
          now destruct (is_IN pin)).
    rewrite E1, E2. destruct (is_IN pin); lia.
  - unfold Section_minOuterWidth, Section_addPin. cbn [section_pins].
    rewrite !minOuterWidth_loop, map_app. apply fold_max_app.
  - rewrite !Section_minInnerWidth_int. unfold Section_addPin. cbn [section_pins].
    rewrite !filter_app, !map_app, !fold_left_app. cbn [filter].
    destruct (is_IN pin), (is_OUT pin); cbn [map fold_left app]; lia.
Qed.

(** X6: [addSection] makes each shared width the larger of its old value and
    the minimum width of the new section, so neither width shrinks and the
    sections already there stay covered. *)
Theorem Symbol_addSection_widths rec (y : SymbolT) (section : SectionT) :
  Symbol_widths rec (Symbol_addSection y section)
  = (Z.max (fst (Symbol_widths rec y)) (Section_minInnerWidth rec section),
     Z.max (snd (Symbol_widths rec y)) (Section_minOuterWidth rec section))
  /\ (forall s', In s' (symbol_sections y) ->
        (Section_minInnerWidth rec s'
         <= fst (Symbol_widths rec (Symbol_addSection y section)))%Z
        /\ (Section_minOuterWidth rec s'
            <= snd (Symbol_widths rec (Symbol_addSection y section)))%Z).
Proof.
  assert (E : Symbol_widths rec (Symbol_addSection y section)
    = (Z.max (fst (Symbol_widths rec y)) (Section_minInnerWidth rec section),
       Z.max (snd (Symbol_widths rec y)) (Section_minOuterWidth rec section))).
  { unfold Symbol_widths, Symbol_addSection. cbn [symbol_sections].
    rewrite !widths_loop, !map_app. cbn [fst snd map]. now rewrite !fold_max_app. }
  split; [exact E|]. intros s' Hs'. rewrite E. cbn [fst snd].
  unfold Symbol_widths. rewrite widths_loop. cbn [fst snd].
  destruct (fold_max_spec (map (Section_minInnerWidth rec) (symbol_sections y)) 0%Z)
    as (_ & Hi & _).
  destruct (fold_max_spec (map (Section_minOuterWidth rec) (symbol_sections y)) 0%Z)
    as (_ & Ho & _).
  specialize (Hi (Section_minInnerWidth rec s') (in_map _ _ _ Hs')).
  specialize (Ho (Section_minOuterWidth rec s') (in_map _ _ _ Hs')).
  simpl in Hi, Ho. lia.
Qed.

(** X7: the name of the symbol is centred on its sections: the middle of the
    text [Symbol::draw] paints first is the middle of the rectangle of every
    section it draws. *)
Theorem Symbol_name_centred ctx rec (y : SymbolT) :
  exists x w rest,
    painted ctx (Symbol_draw ctx rec y)
    = text_mark (symbol_name y) x (te_height (ctx (symbol_name y))) w (0, 0, 0) :: rest
    /\ forall section r,
         In (section, r) (calls (Symbol_draw_body ctx rec y)) ->
         x + w / 2 == rect_x r + rect_width r / 2.
Proof.
  destruct (Symbol_draw_drawn ctx rec y Context_create eq_refl) as (_ & _ & _ & M).
  do 3 eexists. split; [unfold painted; rewrite M; reflexivity|].
  intros section r Hin.
  destruct (Symbol_draw_rects ctx rec y section r Hin) as (Ex & _ & Ew & _).
  rewrite Ex, Ew. field.
Qed.

(** ** Where the pins of a section go *)

Lemma column_calls_length (H : Z) (ps : list Pin) (pin_rect : Rectangle) :
  List.length (column_calls H pin_rect ps) = List.length ps.
Proof.
  rewrite <- (column_calls_pins H ps pin_rect) at 2. now rewrite length_map.
Qed.

Lemma left_pins_length (s : SectionT) :
  Z.of_nat (List.length (left_pins s)) = count_pins is_IN (section_pins s).
Proof. unfold left_pins. now rewrite copy_if_filter. Qed.

Lemma right_pins_length (s : SectionT) :
  Z.of_nat (List.length (right_pins s))
  = count_pins (fun p => is_OUT p || is_INOUT p) (section_pins s).
Proof.
  unfold right_pins. rewrite copy_if_filter, <- count_pins_not_IN. reflexivity.
Qed.

(** The baseline of a row as one integer offset from the padded top. *)
Lemma row_y_offset (H : Z) (pos : Rectangle) (k : nat) :
  row_y H pos k
  == rect_y pos + kTopBottomPadding
     + int_to_double (Z.of_nat (S k) * H + Z.of_nat k * 5)%Z.
Proof.
  unfold row_y, int_to_double, kPinSpacing.
  rewrite inject_Z_plus, !inject_Z_mult. change (inject_Z 5) with 5. ring.
Qed.

Lemma column_calls_In (H : Z) (ps : list Pin) (pin_rect : Rectangle)
    (c : Pin * Rectangle) :
  In c (column_calls H pin_rect ps) ->
  exists k : nat,
    (k < List.length ps)%nat /\ nth_error (column_calls H pin_rect ps) k = Some c.
Proof.
  intros Hin. apply In_nth_error in Hin. destruct Hin as [k Hk].
  exists k. split; [|exact Hk].
  rewrite <- (column_calls_length H ps pin_rect).
  apply nth_error_Some. congruence.
Qed.

(** Every pin a section draws is in some row below [rows()]. *)
Lemma Section_draw_rows rec (s : SectionT) (pos : Rectangle) (c : Pin * Rectangle) :
  In c (calls (Section_draw_body rec s pos)) ->
  exists k : nat,
    (Z.of_nat (S k) <= Section_rows s)%Z
    /\ rect_y (snd c) == row_y (Pin_height rec) pos k.
Proof.
  rewrite Section_draw_calls, Section_rows_max, <- left_pins_length, <- right_pins_length.
  intros Hin. apply in_app_or in Hin.
  destruct Hin as [Hin | Hin]; apply column_calls_In in Hin;
    destruct Hin as (k & Hlt & Hk); exists k;
    (split; [lia | apply column_calls_y in Hk; rewrite Hk; reflexivity]).
Qed.

(** X8: with a font whose line height is not negative, a section drawn in a
    rectangle of its own [height()], as [Symbol::draw] does, keeps every pin
    inside: each baseline is at least [kTopBottomPadding] plus one pin height
    below the top, and at least [kTopBottomPadding] above the bottom. *)
Theorem Section_draw_pins_inside rec
    (Hfont : 0 <= te_height (rec "Hello world"%string))
    (s : SectionT) (x y w : Q) (pin : Pin) (pin_rect : Rectangle) :
  let pos := mkRectangle x y w (int_to_double (Section_height rec s)) in
  In (pin, pin_rect) (calls (Section_draw_body rec s pos)) ->
  rect_y pos + kTopBottomPadding + int_to_double (Pin_height rec) <= rect_y pin_rect
  /\ rect_y pin_rect <= rect_y pos + rect_height pos - kTopBottomPadding.
Proof.
  intros pos Hin. pose proof (Pin_height_nonneg rec Hfont) as HH.
  apply Section_draw_rows in Hin. destruct Hin as (k & Hk & Ey).
  cbn [snd] in Ey. rewrite Ey, row_y_offset.
  subst pos. cbn [rect_y rect_height]. rewrite Section_height_int.
  set (r := Section_rows s) in *. set (h := Pin_height rec) in *.
  assert (B1 : (h <= Z.of_nat (S k) * h + Z.of_nat k * 5)%Z) by nia.
  assert (B2 : (Z.of_nat (S k) * h + Z.of_nat k * 5 + 20
                <= 5 * (r - 1) + r * h + 2 * 10)%Z) by nia.
  rewrite Zle_Qle in B1, B2. unfold int_to_double, kTopBottomPadding.
  rewrite inject_Z_plus in B2. change (inject_Z 20) with 20 in B2.
  lra.
Qed.

(** ** Horizontal room *)

Lemma name_box_IN ctx (p : Pin) (pos : Rectangle) :
  is_IN p = true ->
  name_box ctx p pos
  = Some (rect_x pos + kTextPadding,
          rect_x pos + kTextPadding + te_width (ctx (pin_name p))).
Proof.
  destruct p as [d name type bus]. unfold is_IN, getDirection. cbn [pin_direction].
  destruct d; [reflexivity | discriminate | discriminate].
Qed.

Lemma name_box_not_IN ctx (p : Pin) (pos : Rectangle) :
  is_IN p = false ->
  name_box ctx p pos
  = Some (rect_x pos - kTextPadding + - te_width (ctx (pin_name p)),
          rect_x pos - kTextPadding + - te_width (ctx (pin_name p))
          + te_width (ctx (pin_name p))).
Proof.
  destruct p as [d name type bus]. unfold is_IN, getDirection. cbn [pin_direction].
  destruct d; [discriminate | reflexivity | reflexivity].
Qed.

Lemma type_box_IN ctx (p : Pin) (pos : Rectangle) :
  is_IN p = true ->
  type_box ctx p pos
  = Some (rect_x pos - kTextPadding - kStemLength + - te_width (ctx (pin_type p)),
          rect_x pos - kTextPadding - kStemLength + - te_width (ctx (pin_type p))
          + te_width (ctx (pin_type p))).
Proof.
  destruct p as [d name type bus]. unfold is_IN, getDirection. cbn [pin_direction].
  destruct d; [reflexivity | discriminate | discriminate].
Qed.

Lemma type_box_not_IN ctx (p : Pin) (pos : Rectangle) :
  is_IN p = false ->
  type_box ctx p pos
  = Some (rect_x pos + kTextPadding + kStemLength,
          rect_x pos + kTextPadding + kStemLength + te_width (ctx (pin_type p))).
Proof.
  destruct p as [d name type bus]. unfold is_IN, getDirection. cbn [pin_direction].
  destruct d; [discriminate | reflexivity | reflexivity].
Qed.

(** The side of the rectangle a drawn pin is anchored on. *)
Lemma Section_draw_anchor rec (s : SectionT) (pos : Rectangle) (p : Pin)
    (pin_rect : Rectangle) :
  In (p, pin_rect) (calls (Section_draw_body rec s pos)) ->
  In p (section_pins s)
  /\ rect_x pin_rect
     = (if is_IN p then rect_x pos else rect_x pos + rect_width pos).
Proof.
  rewrite Section_draw_calls. intros Hin. apply in_app_or in Hin.
  destruct Hin as [Hin | Hin].
  - pose proof (in_map fst _ _ Hin) as Hp. rewrite column_calls_pins in Hp.
    unfold left_pins in Hp. rewrite copy_if_filter in Hp. cbn [app fst] in Hp.
    apply filter_In in Hp. destruct Hp as [Hp Hd]. split; [exact Hp|]. rewrite Hd.
    pose proof (column_calls_x (Pin_height rec) (left_pins s)
                  (mkRectangle (rect_x pos) (rect_y pos + kTopBottomPadding) 0 0)) as Hx.
    rewrite Forall_forall in Hx. exact (Hx _ Hin).
  - pose proof (in_map fst _ _ Hin) as Hp. rewrite column_calls_pins in Hp.
    unfold right_pins in Hp. rewrite copy_if_filter in Hp. cbn [app fst] in Hp.
    apply filter_In in Hp. destruct Hp as [Hp Hd]. split; [exact Hp|].
    apply negb_true_iff in Hd. rewrite Hd.
    pose proof (column_calls_x (Pin_height rec) (right_pins s)
                  (mkRectangle (rect_x pos + rect_width pos)
                               (rect_y pos + kTopBottomPadding) 0 0)) as Hx.
    rewrite Forall_forall in Hx. exact (Hx _ Hin).
Qed.

(** The shared widths cover the minimum widths of every section drawn. *)
Lemma Symbol_widths_cover ctx rec (y : SymbolT) (s : SectionT) (r : Rectangle) :
  In (s, r) (calls (Symbol_draw_body ctx rec y)) ->
  (Section_minInnerWidth rec s <= fst (Symbol_widths rec y))%Z
  /\ (Section_minOuterWidth rec s <= snd (Symbol_widths rec y))%Z.
Proof.
  rewrite Symbol_draw_calls. intros Hin. apply in_map_iff in Hin.
  destruct Hin as (s' & E & Hs). inversion E; subst s'. clear E.
  unfold Symbol_widths. rewrite widths_loop. cbn [fst snd].
  destruct (fold_max_spec (map (Section_minInnerWidth rec) (symbol_sections y)) 0%Z)
    as (_ & Hi & _).
  destruct (fold_max_spec (map (Section_minOuterWidth rec) (symbol_sections y)) 0%Z)
    as (_ & Ho & _).
  split; [apply Hi | apply Ho]; now apply in_map.
Qed.

Lemma Section_minOuterWidth_covers rec (s : SectionT) (p : Pin) :
  In p (section_pins s) -> (Pin_outerWidth rec p <= Section_minOuterWidth rec s)%Z.
Proof.
  intros Hp. unfold Section_minOuterWidth. rewrite minOuterWidth_loop.
  destruct (fold_max_spec (map (Pin_outerWidth rec) (section_pins s)) 0%Z)
    as (_ & H & _).
  apply H. now apply in_map.
Qed.

Lemma Section_minInnerWidth_covers rec (s : SectionT) (p q : Pin) :
  In p (section_pins s) -> In q (section_pins s) ->
  is_IN p = true -> is_OUT q = true ->
  (Pin_innerWidth rec p + 10 + Pin_innerWidth rec q <= Section_minInnerWidth rec s)%Z.
Proof.
  intros Hp Hq Dp Dq. rewrite Section_minInnerWidth_int.
  destruct (fold_max_spec
              (map (Pin_innerWidth rec) (filter is_IN (section_pins s))) 0%Z)
    as (_ & Hl & _).
  destruct (fold_max_spec
              (map (Pin_innerWidth rec) (filter is_OUT (section_pins s))) 0%Z)
    as (_ & Hr & _).
  specialize (Hl (Pin_innerWidth rec p)). specialize (Hr (Pin_innerWidth rec q)).
  simpl in Hl, Hr.
  assert (Hl' : In (Pin_innerWidth rec p)
                   (map (Pin_innerWidth rec) (filter is_IN (section_pins s))))
    by (apply in_map, filter_In; now split).
  assert (Hr' : In (Pin_innerWidth rec q)
                   (map (Pin_innerWidth rec) (filter is_OUT (section_pins s))))
    by (apply in_map, filter_In; now split).
  specialize (Hl Hl'). specialize (Hr Hr'). lia.
Qed.

(** X9: when the context drawn on and the scratch context measure text alike
    and no text has a negative width, the name of an IN pin and the name of an
    OUT pin of one section of a drawn symbol never touch: the IN name ends
    more than 8 left of where the OUT name starts. *)
Theorem Symbol_draw_names_apart (e : string -> TextExtents) (Hfont : nonneg_extents e)
    (y : SymbolT) (s : SectionT) (r : Rectangle) (p q : Pin) (pr qr : Rectangle) :
  In (s, r) (calls (Symbol_draw_body e e y)) ->
  In (p, pr) (calls (Section_draw_body e s r)) ->
  In (q, qr) (calls (Section_draw_body e s r)) ->
  pin_direction p = IN ->
  pin_direction q = OUT ->
  exists l1 r1 l2 r2,
    name_box e p pr = Some (l1, r1)
    /\ name_box e q qr = Some (l2, r2)
    /\ r1 + 8 < l2.
Proof.
  intros Hs Hp Hq Dp Dq.
  assert (Ip : is_IN p = true) by (unfold is_IN, getDirection; now rewrite Dp).
  assert (Iq : is_IN q = false) by (unfold is_IN, getDirection; now rewrite Dq).
  assert (Oq : is_OUT q = true) by (unfold is_OUT, getDirection; now rewrite Dq).
  destruct (Section_draw_anchor e s r p pr Hp) as [Inp Xp].
  destruct (Section_draw_anchor e s r q qr Hq) as [Inq Xq].
  rewrite Ip in Xp. rewrite Iq in Xq.
  destruct (Symbol_widths_cover e e y s r Hs) as [Hcover _].
  destruct (Symbol_draw_rects e e y s r Hs) as (_ & _ & Ew & _).
  pose proof (Section_minInnerWidth_covers e s p q Inp Inq Ip Oq) as Hsum.
  do 4 eexists. split; [apply (name_box_IN e p pr Ip)|].
  split; [apply (name_box_not_IN e q qr Iq)|].
  rewrite Xp, Xq, Ew.
  pose proof (Hfont (pin_name p)) as Wp. pose proof (Hfont (pin_name q)) as Wq.
  assert (Tp : kTextPadding + te_width (e (pin_name p))
               < int_to_double (Pin_innerWidth e p) + 1)
    by (apply double_to_int_lt; unfold kTextPadding; lra).
  assert (Tq : kTextPadding + te_width (e (pin_name q))
               < int_to_double (Pin_innerWidth e q) + 1)
    by (apply double_to_int_lt; unfold kTextPadding; lra).
  assert (Hall : (Pin_innerWidth e p + 10 + Pin_innerWidth e q
                  <= fst (Symbol_widths e y))%Z) by lia.
  rewrite Zle_Qle, !inject_Z_plus in Hall. change (inject_Z 10) with 10 in Hall.
  unfold int_to_double, kTextPadding in *. lra.
Qed.

(** X10: under the same conditions every type label of a drawn symbol lies
    between [-1] and [innerWidth + 2*outerWidth + 1]: the room [Symbol::draw]
    leaves on the left of the sections, and the same room on their right, hold
    the stems and the types up to the fraction of a unit lost when
    [outerWidth()] is cut to an [int]. *)
Theorem Symbol_draw_types_in_room (e : string -> TextExtents) (Hfont : nonneg_extents e)
    (y : SymbolT) (s : SectionT) (r : Rectangle) (p : Pin) (pr : Rectangle) :
  In (s, r) (calls (Symbol_draw_body e e y)) ->
  In (p, pr) (calls (Section_draw_body e s r)) ->
  exists l1 r1,
    type_box e p pr = Some (l1, r1)
    /\ - (1) < l1
    /\ l1 <= r1
    /\ r1 < int_to_double (fst (Symbol_widths e y) + 2 * snd (Symbol_widths e y)) + 1.
Proof.
  intros Hs Hp.
  destruct (Section_draw_anchor e s r p pr Hp) as [Inp Xp].
  destruct (Symbol_widths_cover e e y s r Hs) as [Hci Hco].
  destruct (Symbol_draw_rects e e y s r Hs) as (Ex & _ & Ew & _).
  pose proof (Section_minOuterWidth_covers e s p Inp) as Hout.
  pose proof (Section_minInnerWidth_nonneg e s) as Hi0.
  pose proof (Hfont (pin_type p)) as Wt.
  assert (Tt : kStemLength + kTextPadding + te_width (e (pin_type p))
               < int_to_double (Pin_outerWidth e p) + 1)
    by (apply double_to_int_lt; unfold kStemLength, kTextPadding; lra).
  pose proof (Pin_outerWidth_nonneg e p Hfont) as Ho0.
  assert (Ho : (Pin_outerWidth e p <= snd (Symbol_widths e y))%Z) by lia.
  assert (Hi : (0 <= fst (Symbol_widths e y))%Z) by lia.
  rewrite Zle_Qle in Ho, Hi, Ho0. change (inject_Z 0) with 0 in Hi, Ho0.
  rewrite Ex, Ew in Xp.
  destruct (is_IN p) eqn:Ip.
  - do 2 eexists. split; [apply (type_box_IN e p pr Ip)|].
    rewrite Xp. unfold int_to_double, kStemLength, kTextPadding in *.
    rewrite inject_Z_plus, inject_Z_mult. change (inject_Z 2) with 2.
    repeat split; lra.
  - do 2 eexists. split; [apply (type_box_not_IN e p pr Ip)|].
    rewrite Xp. unfold int_to_double, kStemLength, kTextPadding in *.
    rewrite inject_Z_plus, inject_Z_mult. change (inject_Z 2) with 2.
    repeat split; lra.
Qed.

(** ** Degenerate symbols *)

(** X11: a symbol with no section is drawn as its name alone, centred on
    [x = 0]: both shared widths are 0, so the left half of the name is left of
    the origin. *)
Theorem Symbol_draw_no_section ctx rec (name : string) :
  exists x,
    painted ctx (Symbol_draw ctx rec (mkSymbol [] name))
    = [text_mark name x (te_height (ctx name)) (te_width (ctx name)) (0, 0, 0)]
    /\ x + te_width (ctx name) / 2 == 0.
Proof.
  eexists. split; [reflexivity|].
  change (Symbol_widths rec (mkSymbol [] name)) with (0%Z, 0%Z).
  cbn [fst snd symbol_name]. unfold int_to_double. change (inject_Z 0) with 0. field.
Qed.

(** X12: whatever the sections of a symbol, [Symbol::draw] gives any two of
    them rectangles with the same left side, the same top and the same width:
    the rectangles differ in height only, and each section is drawn over the
    one before. *)
Theorem Symbol_draw_sections_coincide ctx rec (y : SymbolT)
    (s1 s2 : SectionT) (r1 r2 : Rectangle) :
  In (s1, r1) (calls (Symbol_draw_body ctx rec y)) ->
  In (s2, r2) (calls (Symbol_draw_body ctx rec y)) ->
  rect_x r1 = rect_x r2
  /\ rect_y r1 = rect_y r2
  /\ rect_width r1 = rect_width r2
  /\ rect_y r1 = te_height (ctx (symbol_name y)) + kNameSpacing
  /\ rect_height r1 = int_to_double (Section_height rec s1)
  /\ rect_height r2 = int_to_double (Section_height rec s2).
Proof.
  intros H1 H2.
  destruct (Symbol_draw_rects ctx rec y s1 r1 H1) as (X1 & Y1 & W1 & E1).
  destruct (Symbol_draw_rects ctx rec y s2 r2 H2) as (X2 & Y2 & W2 & E2).
  repeat split; congruence.
Qed.

(** ** The further properties on the program of [main] *)

Lemma Section_minOuterWidth_max_witness :
  nonneg_extents mono_extents
  /\ max_or_zero (Section_minOuterWidth mono_extents main_pins)
                 (map (Pin_outerWidth mono_extents) (section_pins main_pins)).
Proof.
  split; [exact mono_extents_nonneg|].
  exact (Section_minOuterWidth_max mono_extents mono_extents_nonneg main_pins).
Defined.

Lemma Section_draw_pins_inside_witness :
  0 <= te_height (mono_extents "Hello world"%string)
  /\ In (pin4, mkRectangle 92 61 0 0)
        (calls (Section_draw_body mono_extents main_pins
                  (mkRectangle 92 14 98
                     (int_to_double (Section_height mono_extents main_pins)))))
  /\ 14 + kTopBottomPadding + int_to_double (Pin_height mono_extents) <= 61
  /\ 61 <= 14 + int_to_double (Section_height mono_extents main_pins) - kTopBottomPadding.
Proof.
  assert (Hfont : 0 <= te_height (mono_extents "Hello world"%string))
    by (vm_compute; discriminate).
  assert (Hin : In (pin4, mkRectangle 92 61 0 0)
                   (calls (Section_draw_body mono_extents main_pins
                             (mkRectangle 92 14 98
                                (int_to_double (Section_height mono_extents main_pins))))))
    by (vm_compute; right; right; left; reflexivity).
  split; [exact Hfont|]. split; [exact Hin|].
  exact (Section_draw_pins_inside mono_extents Hfont main_pins 92 14 98 pin4
           (mkRectangle 92 61 0 0) Hin).
Defined.

Lemma Symbol_draw_names_apart_witness :
  nonneg_extents mono_extents
  /\ In (main_pins, mkRectangle 92 14 98 57)
        (calls (Symbol_draw_body mono_extents mono_extents main_symbol))
  /\ In (pin1, mkRectangle 92 33 0 0)
        (calls (Section_draw_body mono_extents main_pins (mkRectangle 92 14 98 57)))
  /\ In (pin2, mkRectangle 190 33 0 0)
        (calls (Section_draw_body mono_extents main_pins (mkRectangle 92 14 98 57)))
  /\ exists l1 r1 l2 r2,
       name_box mono_extents pin1 (mkRectangle 92 33 0 0) = Some (l1, r1)
       /\ name_box mono_extents pin2 (mkRectangle 190 33 0 0) = Some (l2, r2)
       /\ r1 + 8 < l2.
Proof.
  assert (Hs : In (main_pins, mkRectangle 92 14 98 57)
                  (calls (Symbol_draw_body mono_extents mono_extents main_symbol)))
    by (vm_compute; left; reflexivity).
  assert (Hp : In (pin1, mkRectangle 92 33 0 0)
                  (calls (Section_draw_body mono_extents main_pins
                            (mkRectangle 92 14 98 57))))
    by (vm_compute; left; reflexivity).
  assert (Hq : In (pin2, mkRectangle 190 33 0 0)
                  (calls (Section_draw_body mono_extents main_pins
                            (mkRectangle 92 14 98 57))))
    by (vm_compute; do 3 right; left; reflexivity).
  split; [exact mono_extents_nonneg|]. split; [exact Hs|].
  split; [exact Hp|]. split; [exact Hq|].
  exact (Symbol_draw_names_apart mono_extents mono_extents_nonneg main_symbol main_pins
           (mkRectangle 92 14 98 57) pin1 pin2
           (mkRectangle 92 33 0 0) (mkRectangle 190 33 0 0)
           Hs Hp Hq eq_refl eq_refl).
Defined.

Lemma Symbol_draw_types_in_room_witness :
  nonneg_extents mono_extents
  /\ exists l1 r1,
       type_box mono_extents pin1 (mkRectangle 92 33 0 0) = Some (l1, r1)
       /\ - (1) < l1
       /\ l1 <= r1
       /\ r1 < int_to_double (fst (Symbol_widths mono_extents main_symbol)
                              + 2 * snd (Symbol_widths mono_extents main_symbol)) + 1.
Proof.
  split; [exact mono_extents_nonneg|].
  refine (Symbol_draw_types_in_room mono_extents mono_extents_nonneg main_symbol main_pins
            (mkRectangle 92 14 98 57) pin1 (mkRectangle 92 33 0 0) _ _);
    vm_compute; left; reflexivity.
Defined.

Lemma Symbol_draw_sections_coincide_witness :
  rect_y (mkRectangle 92 14 98 29) = rect_y (mkRectangle 92 14 98 57)
  /\ rect_height (mkRectangle 92 14 98 57)
     = int_to_double (Section_height mono_extents main_pins).
Proof.
  assert (H1 : In (main_pins, mkRectangle 92 14 98 57)
                  (calls (Symbol_draw_body mono_extents mono_extents two_sections)))
    by (vm_compute; left; reflexivity).
  assert (H2 : In (mkSection [mkPin INOUT "io_data" "logic [7:0]" true] ""%string,
                   mkRectangle 92 14 98 29)
                  (calls (Symbol_draw_body mono_extents mono_extents two_sections)))
    by (vm_compute; right; left; reflexivity).
  pose proof (Symbol_draw_sections_coincide mono_extents mono_extents two_sections
                _ _ _ _ H2 H1) as (_ & E & _ & _ & _ & Eh).
  split; [exact E | exact Eh].
Defined.
